(** * Elementary collapses and the spine of a simplicial complex

    A shallow embedding of [include/aleph/topology/Spine.hh] (namespace
    [aleph::topology]) and of its reference implementation in namespace
    [aleph::topology::dumb], together with the properties of the two
    reducers. *)

From Stdlib Require Import Ascii.
From stdpp Require Import gmap list fin_maps fin_sets sorting.

(** ** Simplices *)

(** Modelled from the spec: [aleph/topology/Simplex.hh] is not among the
    sources.  A simplex is identified by its vertex set only (the data value
    attached to it takes no part in equality or hashing and is never read by
    the spine code), so it is represented by the list of its vertices as the
    constructor normalises them.  The default-constructed simplex
    [Simplex()] is the empty list; it is what the code returns for "none". *)
Abbreviation Vertex := nat (only parsing).
Abbreviation Simplex := (list nat) (only parsing).

(** Modelled from the spec: [Simplex::operator bool], false exactly for the
    empty simplex. *)
Definition simplex_bool (s : Simplex) : bool :=
  match s with
  | [] => false
  | _ :: _ => true
  end.

(** Modelled from the spec: [Simplex::dimension], the number of vertices
    less one. *)
Definition dimension (s : Simplex) : nat := length s - 1.

(** All lists obtained by leaving out one element, the element left out
    moving from the first position to the last. *)
Fixpoint drop_each (s : Simplex) : list Simplex :=
  match s with
  | [] => []
  | v :: r => r :: map (cons v) (drop_each r)
  end.

(** Modelled from the spec: the range [begin_boundary(), end_boundary())],
    the codimension-1 faces in a fixed order.  A simplex is a non-empty
    vertex set, hence a vertex has no face. *)
Definition boundary (s : Simplex) : list Simplex :=
  match s with
  | [] | [_] => []
  | _ => drop_each s
  end.

(** Modelled from the spec: [intersect] of [Intersections.hh], the simplex
    of the vertices common to both arguments. *)
Definition intersect (s t : Simplex) : Simplex :=
  filter (λ v, v ∈ t) s.

(** Modelled from the spec: [sizeOfIntersection] of [Intersections.hh], the
    number of vertices common to both arguments. *)
Definition sizeOfIntersection (s t : Simplex) : nat :=
  length (intersect s t).

(** ** Simplicial complexes *)

(** Modelled from the spec: [aleph/topology/SimplicialComplex.hh] is not
    among the sources.  The container is represented by the sequence of its
    members in enumeration order. *)
Abbreviation SimplicialComplex := (list (list nat)) (only parsing).

(** Modelled from the spec: the unchecked removal primitive; it erases the
    member equal to [s] and re-validates nothing. *)
Definition remove_without_validation (s : Simplex) (K : SimplicialComplex)
  : SimplicialComplex :=
  filter (λ u, u ≠ s) K.

(** Modelled from the spec: [SimplicialComplex::range], the members of
    dimension [d]. *)
Definition range (d : nat) (K : SimplicialComplex) : SimplicialComplex :=
  filter (λ u, dimension u = d) K.

(** The vertices of every member are listed in increasing order, without
    repetition, as the constructor of a simplex leaves them. *)
Definition normalised (K : SimplicialComplex) : Prop :=
  Forall (StronglySorted lt) K.

(** Every codimension-1 face of a member is a member. *)
Definition face_closed (K : SimplicialComplex) : Prop :=
  ∀ u f, u ∈ K → f ∈ boundary u → f ∈ K.

(** A complex as the spine functions expect it: the members are pairwise
    distinct and closed under faces. *)
Record complex (K : SimplicialComplex) : Prop := {
  complex_NoDup : NoDup K;
  complex_closed : face_closed K
}.

(** ** [std::unordered_map<Simplex, Simplex>] *)

(** The C++ standard leaves the iteration order of an unordered map, and
    with it the element [begin()] designates, to the implementation; it may
    depend on the hash function, the bucket count and the history of the
    container.  The interface below fixes what the standard does guarantee:
    the contents after [insert] (which keeps an existing key), [erase] and
    default construction, that [empty()] tells whether there is content, and
    that [begin()] designates a member when there is one. *)
Class UnorderedMap (M : Type) := {
  um_new : M;
  um_insert : Simplex → Simplex → M → M;
  um_erase : Simplex → M → M;
  um_empty : M → bool;
  um_begin : M → option (Simplex * Simplex);
  um_content : M → gmap Simplex Simplex;
  um_content_new : um_content um_new = ∅;
  um_content_insert k v m :
    um_content (um_insert k v m) =
      match um_content m !! k with
      | Some _ => um_content m
      | None => <[k:=v]> (um_content m)
      end;
  um_content_erase k m : um_content (um_erase k m) = delete k (um_content m);
  um_empty_spec m : um_empty m = true ↔ um_content m = ∅;
  um_begin_member m k v : um_begin m = Some (k, v) → um_content m !! k = Some v;
  um_begin_nonempty m : um_content m ≠ ∅ → is_Some (um_begin m)
}.

(** A run of a spine function either returns a complex, or leaves through
    the [std::out_of_range] exception of [unordered_map::at], or is still in
    its loop when the iteration budget of the model is used up. *)
Inductive outcome :=
  | Returned (K : SimplicialComplex)
  | Thrown
  | Unfinished.

(** [std::for_each] and range-based [for] over a sequence, threading the
    captured state; [None] is an exception leaving the loop. *)
Fixpoint for_each {A S : Type} (f : S → A → option S) (l : list A) (st : S)
  : option S :=
  match l with
  | [] => Some st
  | x :: l' => st' ← f st x; for_each f l' st'
  end.

(** ** The coface map *)

(** [CofaceMap<Simplex>], an [unordered_map] from simplices to
    [unordered_set]s of simplices.  Only lookups, insertions, erasures and
    sizes are ever taken of it, so its iteration order is immaterial. *)
Abbreviation CofaceMap := (gmap (list nat) (gset (list nat))) (only parsing).

(** [cofaces.at( s )]: [None] stands for the [std::out_of_range] exception
    thrown when [s] is not a key. *)
Definition cofaces_at (cofaces : CofaceMap) (s : Simplex) : option (gset Simplex) :=
  cofaces !! s.

(** [cofaces[ f ].insert( s )]: [operator[]] creates a missing entry. *)
Definition add_coface (s : Simplex) (cofaces : CofaceMap) (f : Simplex)
  : CofaceMap :=
  <[f := default ∅ (cofaces !! f) ∪ {[s]}]> cofaces.

Definition buildCofaceMap_step (cofaces : CofaceMap) (s : Simplex) : CofaceMap :=
  let cofaces :=
    match cofaces !! s with
    | None => <[s := ∅]> cofaces
    | Some _ => cofaces
    end in
  foldl (add_coface s) cofaces (boundary s).

Definition buildCofaceMap (K : SimplicialComplex) : CofaceMap :=
  foldl buildCofaceMap_step ∅ K.

(** [cofaces.at( s ).empty()] *)
Definition isPrincipal (cofaces : CofaceMap) (s : Simplex) : option bool :=
  C ← cofaces_at cofaces s; Some (bool_decide (C = ∅)).

(** The loop of [getFreeFace] over the boundary of [s]. *)
Fixpoint firstFreeFace (cofaces : CofaceMap) (s : Simplex) (faces : list Simplex)
  : option Simplex :=
  match faces with
  | [] => Some []
  | f :: faces' =>
      allCofaces ← cofaces_at cofaces f;
      if bool_decide (size allCofaces = 1) && bool_decide (s ∈ allCofaces)
      then Some f
      else firstFreeFace cofaces s faces'
  end.

Definition getFreeFace (cofaces : CofaceMap) (s : Simplex) : option Simplex :=
  principal ← isPrincipal cofaces s;
  if negb principal then Some [] else firstFreeFace cofaces s (boundary s).

Section Spine.

Context {M : Type} `{UnorderedMap M}.

(** The body shared by the loop of [getPrincipalFaces] and the second
    lambda of the re-probe: look for a free face, insert the pair if there
    is one. *)
Definition probe (cofaces : CofaceMap) (admissible : M) (s : Simplex) : option M :=
  freeFace ← getFreeFace cofaces s;
  Some (if simplex_bool freeFace then um_insert s freeFace admissible
        else admissible).

Definition getPrincipalFaces (cofaces : CofaceMap) (K : SimplicialComplex)
  : option M :=
  for_each (probe cofaces) K um_new.

(** The lambda [removeSimplices], with [s] and [t] captured. *)
Definition removeSimplices (s t : Simplex) (cofaces : CofaceMap) (sigma : Simplex)
  : option CofaceMap :=
  C ← cofaces_at cofaces sigma;
  let cofaces := <[sigma := C ∖ {[s]}]> cofaces in
  C ← cofaces_at cofaces sigma;
  Some (<[sigma := C ∖ {[t]}]> cofaces).

(** The update of the coface map for the collapse of [(s,t)]: the two
    [for_each] calls and the two [erase] calls. *)
Definition collapseMutation (s t : Simplex) (cofaces : CofaceMap)
  : option CofaceMap :=
  cofaces ← for_each (removeSimplices s t) (boundary s) cofaces;
  cofaces ← for_each (removeSimplices s t) (boundary t) cofaces;
  Some (delete t (delete s cofaces)).

(** The first lambda of the re-probe, which skips the free face [t]. *)
Definition probe_except (t : Simplex) (cofaces : CofaceMap) (admissible : M)
  (s : Simplex) : option M :=
  if decide (t ≠ s) then probe cofaces admissible s else Some admissible.

(** The local re-probe: the faces of [s] other than [t], then the faces of
    [t]. *)
Definition reprobe (s t : Simplex) (cofaces : CofaceMap) (admissible : M)
  : option M :=
  admissible ← for_each (probe_except t cofaces) (boundary s) admissible;
  for_each (probe cofaces) (boundary t) admissible.

(** The local variables [L], [cofaces] and [admissible] of [spine]. *)
Record State := mkState {
  st_L : SimplicialComplex;
  st_cofaces : CofaceMap;
  st_admissible : M
}.

(** The statements before the loop. *)
Definition spine_init (K : SimplicialComplex) : option State :=
  let cofaces := buildCofaceMap K in
  admissible ← getPrincipalFaces cofaces K;
  Some (mkState K cofaces admissible).

(** One pass through the body of the [while] loop.  [begin()] is
    dereferenced only after the loop condition has found the map
    non-empty. *)
Definition spine_body (st : State) : option State :=
  '(s, t) ← um_begin (st_admissible st);
  let L := remove_without_validation t (remove_without_validation s (st_L st)) in
  let admissible := um_erase s (st_admissible st) in
  cofaces ← collapseMutation s t (st_cofaces st);
  admissible ← reprobe s t cofaces admissible;
  admissible ←
    (if um_empty admissible then getPrincipalFaces cofaces L
     else Some admissible);
  Some (mkState L cofaces admissible).

(** The [while] loop, run for at most [fuel] passes. *)
Fixpoint spine_loop (fuel : nat) (st : State) : outcome :=
  if um_empty (st_admissible st) then Returned (st_L st)
  else
    match fuel with
    | 0 => Unfinished
    | S fuel' =>
        match spine_body st with
        | None => Thrown
        | Some st' => spine_loop fuel' st'
        end
    end.

(** [aleph::topology::spine], with a bound on the number of passes. *)
Definition spine_fuel (fuel : nat) (K : SimplicialComplex) : outcome :=
  match spine_init K with
  | None => Thrown
  | Some st => spine_loop fuel st
  end.

(** No run needs more passes than the complex has simplices. *)
Definition spine (K : SimplicialComplex) : outcome :=
  spine_fuel (length K) K.

End Spine.

(** ** The reference implementation, namespace [dumb] *)

Module dumb.
Section Dumb.

Context {M : Type} `{UnorderedMap M}.

(** [dumb::isPrincipal]: a vertex is never principal; any other simplex is
    unless a member one dimension up contains all its vertices. *)
Definition isPrincipal (s : Simplex) (K : SimplicialComplex) : bool :=
  if bool_decide (dimension s = 0) then false
  else
    foldl
      (λ principal t,
         if bool_decide (sizeOfIntersection s t = length s) then false
         else principal)
      true (range (dimension s + 1) K).

(** [std::find( admissible.begin(), admissible.end(), true )] as an index;
    [None] is [admissible.end()]. *)
Fixpoint find_true (admissible : list bool) : option nat :=
  match admissible with
  | [] => None
  | b :: admissible' => if b then Some 0 else S <$> find_true admissible'
  end.

(** The flag [admissible[i]] of [isAdmissible] for one [face] of [s]: no
    member of the dimension of [s] other than [s] contains the face. *)
Definition face_flag (s : Simplex) (K : SimplicialComplex) (face : Simplex)
  : bool :=
  negb
    (existsb
       (λ t, bool_decide (t ≠ s)
             && bool_decide (sizeOfIntersection face t = length face))
       (range (dimension s) K)).

(** [dumb::isAdmissible]: "none" for a simplex that is not principal, else
    the first free face, else "none"; [faces.at] is the lookup [!!]. *)
Definition isAdmissible (s : Simplex) (K : SimplicialComplex) : option Simplex :=
  if negb (isPrincipal s K) then Some []
  else
    let faces := boundary s in
    let admissible := map (face_flag s K) faces in
    match find_true admissible with
    | None => Some []
    | Some pos => faces !! pos
    end.

(** The innermost loop of [principalFaces]: is [itFace] a face of a member
    of [M] other than [it]? *)
Definition isFace (M_ : SimplicialComplex) (it itFace : Simplex) : bool :=
  existsb
    (λ simplex,
       bool_decide (dimension itFace + 1 = dimension simplex)
       && bool_decide (simplex ≠ it)
       && bool_decide (intersect itFace simplex = itFace))
    M_.

(** The loop over the boundary of [it]: the first face that is a face of no
    other member; [None] when the loop ends with [hasFreeFace] false. *)
Fixpoint findFreeFace (M_ : SimplicialComplex) (it : Simplex) (faces : list Simplex)
  : option Simplex :=
  match faces with
  | [] => None
  | itFace :: faces' =>
      if isFace M_ it itFace then findFreeFace M_ it faces' else Some itFace
  end.

(** Step 1 of [principalFaces] for one member [it] of [L]; the complex
    tested against is [L] itself ([M = L]). *)
Definition principalFaces_step1 (L : SimplicialComplex) (admissible : M)
  (it : Simplex) : M :=
  if bool_decide (dimension it = 0) then admissible
  else
    match findFreeFace L it (boundary it) with
    | Some freeFace => um_insert it freeFace admissible
    | None => admissible
    end.

(** Step 2 of [principalFaces] for one member [s] of [L]. *)
Definition principalFaces_step2 (admissible : M) (s : Simplex) : M :=
  foldl (λ admissible itFace, um_erase itFace admissible) admissible (boundary s).

Definition principalFaces (K : SimplicialComplex) : M :=
  let L := K in
  let admissible := foldl (principalFaces_step1 L) um_new L in
  foldl principalFaces_step2 admissible L.

(** One pass through the body of the [while] loop of [dumb::spine]: the
    complex after the two removals and the recomputed map. *)
Definition spine_body (L : SimplicialComplex) (admissible : M)
  : option (SimplicialComplex * M) :=
  '(s, t) ← um_begin admissible;
  let L := remove_without_validation t (remove_without_validation s L) in
  Some (L, principalFaces L).

Fixpoint spine_loop (fuel : nat) (L : SimplicialComplex) (admissible : M)
  : outcome :=
  if um_empty admissible then Returned L
  else
    match fuel with
    | 0 => Unfinished
    | S fuel' =>
        match spine_body L admissible with
        | None => Thrown
        | Some (L', admissible') => spine_loop fuel' L' admissible'
        end
    end.

(** [aleph::topology::dumb::spine], with a bound on the number of passes. *)
Definition spine_fuel (fuel : nat) (K : SimplicialComplex) : outcome :=
  spine_loop fuel K (principalFaces K).

Definition spine (K : SimplicialComplex) : outcome :=
  spine_fuel (length K) K.

End Dumb.
End dumb.

(** ** [isConsistentFiltration] of the tests *)

(** [isConsistentFiltration] of [tests/test_rips_expansion.cc]: every
    simplex of the sequence is entered into the set [seen], and each of its
    faces is then looked up there.  Modelled from the spec: the order of
    [std::set<Simplex>] identifies simplices with equal vertex sets. *)
Fixpoint isConsistentFiltration_loop (seen : gset Simplex) (l : list Simplex)
  : bool :=
  match l with
  | [] => true
  | s :: l' =>
      let seen := seen ∪ {[s]} in
      if forallb (λ itFace, bool_decide (itFace ∈ seen)) (boundary s)
      then isConsistentFiltration_loop seen l'
      else false
  end.

Definition isConsistentFiltration (l : list Simplex) : bool :=
  isConsistentFiltration_loop ∅ l.

(** ** Trimming, [utilities/String.hh] *)

Module utilities.

(** [std::isspace] in the "C" locale: space, and the controls from tab to
    carriage return. *)
Definition isspace (c : ascii) : bool :=
  let n := nat_of_ascii c in
  (9 <=? n) && (n <=? 13) || (n =? 32).

(** [std::find_if_not] as an offset from the start of the range; the
    length of the range stands for its end. *)
Fixpoint find_if_not (p : ascii → bool) (l : list ascii) : nat :=
  match l with
  | [] => 0
  | c :: l' => if p c then S (find_if_not p l') else 0
  end.

(** [erase( begin, find_if_not( begin, end, isspace ) )] *)
Definition ltrim (sequence : list ascii) : list ascii :=
  drop (find_if_not isspace sequence) sequence.

(** [erase( find_if_not( rbegin, rend, isspace ).base(), end )]: the base
    of a reverse iterator at offset [k] is [k] elements before the end. *)
Definition rtrim (sequence : list ascii) : list ascii :=
  take (length sequence - find_if_not isspace (reverse sequence)) sequence.

Definition trim (sequence : list ascii) : list ascii :=
  ltrim (rtrim sequence).

End utilities.

(** ** Two concrete unordered maps *)

(** An association list whose newest key comes first: the order of a hash
    table in which every insertion opens a bucket of its own and is linked
    in at the head of the element list. *)
Module NewestFirst.

Record t := Make { bindings : list (Simplex * Simplex) }.

Definition new : t := Make [].

Definition insert (k v : Simplex) (m : t) : t :=
  if decide (k ∈ (bindings m).*1) then m else Make ((k, v) :: bindings m).

Definition erase (k : Simplex) (m : t) : t :=
  Make (filter (λ p, p.1 ≠ k) (bindings m)).

Definition empty (m : t) : bool :=
  match bindings m with [] => true | _ => false end.

Definition begin (m : t) : option (Simplex * Simplex) := head (bindings m).

Definition content (m : t) : gmap Simplex Simplex := list_to_map (bindings m).

End NewestFirst.

(** An association list whose oldest key comes first: the order of a hash
    table that keeps its elements linked in the order of their insertion. *)
Module OldestFirst.

Record t := Make { bindings : list (Simplex * Simplex) }.

Definition new : t := Make [].

Definition insert (k v : Simplex) (m : t) : t :=
  if decide (k ∈ (bindings m).*1) then m else Make (bindings m ++ [(k, v)]).

Definition erase (k : Simplex) (m : t) : t :=
  Make (filter (λ p, p.1 ≠ k) (bindings m)).

Definition empty (m : t) : bool :=
  match bindings m with [] => true | _ => false end.

Definition begin (m : t) : option (Simplex * Simplex) := head (bindings m).

Definition content (m : t) : gmap Simplex Simplex := list_to_map (bindings m).

End OldestFirst.

(** ** Specification vocabulary *)

(** The members of [K] that have [s] as a codimension-1 face. *)
Definition cofaces_of (K : SimplicialComplex) (s : Simplex) : gset Simplex :=
  list_to_set (filter (λ u, s ∈ boundary u) K).

(** The coface map holds an entry exactly for the members of [K], and the
    entry of a member is the set of its cofaces in [K]. *)
Definition coface_consistent (K : SimplicialComplex) (cofaces : CofaceMap) : Prop :=
  ∀ s, cofaces !! s = if decide (s ∈ K) then Some (cofaces_of K s) else None.

(** [(s,t)] is an admissible pair of [K] as the coface map records it. *)
Definition admissible_pair (K : SimplicialComplex) (cofaces : CofaceMap)
  (s t : Simplex) : Prop :=
  s ∈ K ∧ t ∈ K ∧ t ∈ boundary s ∧
  cofaces !! s = Some ∅ ∧ cofaces !! t = Some {[s]}.

(** No member of [K] has a free face: [getFreeFace] answers "none" for each. *)
Definition irreducible (K : SimplicialComplex) (cofaces : CofaceMap) : Prop :=
  ∀ s, s ∈ K → getFreeFace cofaces s = Some [].

(** *** Elementary collapses *)

(** [K'] results from [K] by the elementary collapse of the principal
    simplex [s] along its free face [t]. *)
Definition collapse_by (s t : Simplex) (K K' : SimplicialComplex) : Prop :=
  s ∈ K ∧ t ∈ boundary s ∧ cofaces_of K s = ∅ ∧ cofaces_of K t = {[s]} ∧
  K' = remove_without_validation t (remove_without_validation s K).

Definition collapse (K K' : SimplicialComplex) : Prop :=
  ∃ s t, collapse_by s t K K'.

(** [K] admits no elementary collapse. *)
Definition collapse_free (K : SimplicialComplex) : Prop :=
  ∀ K', ¬ collapse K K'.

(** The Euler characteristic, the alternating count of the simplices by
    dimension. *)
Definition sign (s : Simplex) : Z :=
  if Nat.even (dimension s) then 1%Z else (-1)%Z.

Definition euler (K : SimplicialComplex) : Z :=
  foldr (λ s acc, (sign s + acc)%Z) 0%Z K.

(** *** The states of a run of [spine] *)

Section Vocabulary.

Context {M : Type} `{UnorderedMap M}.

(** Every pair the map holds is an admissible pair of [K]. *)
Definition pairs_admissible (K : SimplicialComplex) (cofaces : CofaceMap)
  (admissible : M) : Prop :=
  ∀ s t, um_content admissible !! s = Some t → admissible_pair K cofaces s t.

(** What a sequence of probes over [l] does to the map: nothing is lost,
    what is added is admissible, and every member of [l] with a free face
    ends up as a key. *)
Record probed (K : SimplicialComplex) (cofaces : CofaceMap) (l : list Simplex)
  (admissible admissible' : M) : Prop := {
  probed_mono : ∀ s, is_Some (um_content admissible !! s) →
                     is_Some (um_content admissible' !! s);
  probed_pairs : pairs_admissible K cofaces admissible →
                 pairs_admissible K cofaces admissible';
  probed_found : ∀ s f, s ∈ l → getFreeFace cofaces s = Some f →
                        simplex_bool f = true →
                        is_Some (um_content admissible' !! s)
}.

(** What holds of the local variables of [spine] whenever the loop
    condition is evaluated. *)
Record Inv (st : State) : Prop := {
  inv_complex : complex (st_L st);
  inv_cofaces : coface_consistent (st_L st) (st_cofaces st);
  inv_pairs : pairs_admissible (st_L st) (st_cofaces st) (st_admissible st);
  inv_exhausted :
    um_content (st_admissible st) = ∅ →
    irreducible (st_L st) (st_cofaces st)
}.

(** One pass of the loop: the condition holds and the body runs to its end. *)
Definition spine_step (st st' : State) : Prop :=
  um_empty (st_admissible st) = false ∧ spine_body st = Some st'.

(** The states in which a run of [spine] on [K] evaluates the loop
    condition. *)
Definition reachable (K : SimplicialComplex) (st : State) : Prop :=
  ∃ st0, spine_init K = Some st0 ∧ rtc spine_step st0 st.

(** The keys that [admissible.begin()] designates in the passes of the loop
    from [st], in the order of the passes, for at most [fuel] passes: the
    key is read when the loop condition has found the map non-empty, and
    the run goes on when the body has run to its end. *)
Fixpoint selections (fuel : nat) (st : State) : list Simplex :=
  if um_empty (st_admissible st) then []
  else
    match fuel with
    | 0 => []
    | S fuel' =>
        match um_begin (st_admissible st) with
        | None => []
        | Some (s, _) =>
            s :: match spine_body st with
                 | None => []
                 | Some st' => selections fuel' st'
                 end
        end
    end.

(** The keys selected in the run of [spine] on [K]. *)
Definition spine_selections (K : SimplicialComplex) : list Simplex :=
  match spine_init K with
  | None => []
  | Some st => selections (length K) st
  end.

End Vocabulary.

(** *** Two runs side by side *)

Section TwoMaps.

Context {M1 : Type} `{UnorderedMap M1} {M2 : Type} `{UnorderedMap M2}.

(** Two unordered maps, of whatever kind, that hold the same pairs. *)
Definition same_content (admissible1 : M1) (admissible2 : M2) : Prop :=
  um_content admissible1 = um_content admissible2.

(** The local variables of two runs agree up to the order of the maps. *)
Definition same_state (st1 : State (M := M1)) (st2 : State (M := M2)) : Prop :=
  st_L st1 = st_L st2 ∧ st_cofaces st1 = st_cofaces st2 ∧
  same_content (st_admissible st1) (st_admissible st2).

End TwoMaps.

(** *** Filtrations *)

(** Every face of a member occurs in the sequence no later than the member
    itself: every initial segment is closed under faces. *)
Definition filtration (l : list Simplex) : Prop :=
  ∀ n, face_closed (take n l).

(** Every face of a member occurs no later than the member. *)
Definition faces_first (l : list Simplex) : Prop :=
  ∀ l1 u l2, l = l1 ++ u :: l2 → ∀ f, f ∈ boundary u → f ∈ l1 ++ [u].

(** *** The specification of [getFreeFace] *)

(** The result of [getFreeFace] in the words of its specification: "none"
    unless [s] is principal, else the first face of [s], in boundary order,
    whose coface set is exactly [{s}], else "none". *)
Definition getFreeFace_spec (cofaces : CofaceMap) (s : Simplex) : Simplex :=
  match cofaces !! s with
  | Some C =>
      if decide (C = ∅)
      then default []
             (head (filter (λ f, cofaces !! f = Some {[s]}) (boundary s)))
      else []
  | None => []
  end.

(** *** The pairs the two engines record *)

(** The first face of [s], in boundary order, whose only coface in [K] is
    [s]. *)
Definition first_free_face (K : SimplicialComplex) (s : Simplex)
  : option Simplex :=
  head (filter (λ f, cofaces_of K f = {[s]}) (boundary s)).

(** The pair [principalFaces] computes for [it] in its first step. *)
Definition step1_pair (K : SimplicialComplex) (it : Simplex) : option Simplex :=
  if bool_decide (dimension it = 0) then None
  else dumb.findFreeFace K it (boundary it).

(** The pair a probe of [s] adds. *)
Definition probe_pair (cofaces : CofaceMap) (s : Simplex) : option Simplex :=
  match getFreeFace cofaces s with
  | Some f => if simplex_bool f then Some f else None
  | None => None
  end.

(** *** White space *)

(** A sequence of white space only. *)
Definition blank (l : list ascii) : Prop :=
  Forall (λ c, utilities.isspace c = true) l.

(** A sequence that neither starts nor ends with white space. *)
Definition trimmed (l : list ascii) : Prop :=
  (∀ c, head l = Some c → utilities.isspace c = false) ∧
  (∀ c, last l = Some c → utilities.isspace c = false).

(** *** Checkable forms *)

(** The sub-sequences of a list. *)
Fixpoint sublists {A : Type} (l : list A) : list (list A) :=
  match l with
  | [] => [[]]
  | x :: l' => map (cons x) (sublists l') ++ sublists l'
  end.

(** [face_closed], [collapse_free] and "is a single vertex" as tests. *)
Definition face_closedb (K : SimplicialComplex) : bool :=
  forallb (λ u, forallb (λ f, bool_decide (f ∈ K)) (boundary u)) K.

Definition collapse_freeb (K : SimplicialComplex) : bool :=
  forallb
    (λ s, forallb
            (λ t, negb (bool_decide (cofaces_of K s = ∅)
                        && bool_decide (cofaces_of K t = {[s]})))
            (boundary s))
    K.

Definition single_vertexb (K : SimplicialComplex) : bool :=
  match K with
  | [[_]] => true
  | _ => false
  end.

(** *** Concrete complexes *)

(** The full 2-simplex with all its faces, as [testTriangle] builds it. *)
Definition full_triangle : SimplicialComplex :=
  [[0; 1; 2]; [0; 1]; [0; 2]; [1; 2]; [0]; [1]; [2]].

(** The boundary of the 2-simplex: three edges, three vertices. *)
Definition hollow_triangle : SimplicialComplex :=
  [[0; 1]; [0; 2]; [1; 2]; [0]; [1]; [2]].

(** Two triangles glued along the edge [{1,2}], and a path through the
    vertex 4 that closes the edge [{0,2}] to a cycle. *)
Definition two_triangles_and_cycle : SimplicialComplex :=
  [[0; 1; 2]; [1; 2; 3];
   [0; 1]; [0; 2]; [1; 2]; [1; 3]; [2; 3]; [0; 4]; [2; 4];
   [0]; [1]; [2]; [3]; [4]].

(** The same complex with its two triangles enumerated the other way
    round. *)
Definition two_triangles_and_cycle_swapped : SimplicialComplex :=
  [[1; 2; 3]; [0; 1; 2];
   [0; 1]; [0; 2]; [1; 2]; [1; 3]; [2; 3]; [0; 4]; [2; 4];
   [0]; [1]; [2]; [3]; [4]].

(** Two triangles glued along an edge, with an edge at a vertex of one. *)
Definition two_triangles_and_edge : SimplicialComplex :=
  [[0]; [1]; [2]; [3]; [4];
   [0; 1]; [0; 2]; [0; 3]; [2; 3]; [2; 4]; [3; 4];
   [0; 2; 3]; [2; 3; 4]].

(** A hollow triangle with a path of two edges at a vertex. *)
Definition hollow_triangle_with_tail : SimplicialComplex :=
  [[0]; [1]; [2]; [3]; [4];
   [0; 1]; [0; 2]; [1; 2]; [2; 3]; [3; 4]].

(** The state of [spine] on the full triangle when the loop is entered, the
    admissible map being a [NewestFirst] one. *)
Definition full_triangle_entry : State (M := NewestFirst.t) :=
  mkState full_triangle (buildCofaceMap full_triangle)
    (NewestFirst.Make [([0; 1; 2], [1; 2])]).

(** ** Lemmas on lists of simplices *)

Lemma elem_of_cofaces_of (K : SimplicialComplex) (s u : Simplex) :
  u ∈ cofaces_of K s ↔ u ∈ K ∧ s ∈ boundary u.
Proof.
  unfold cofaces_of. rewrite elem_of_list_to_set, list_elem_of_filter. tauto.
Qed.

Lemma elem_of_remove (s : Simplex) (K : SimplicialComplex) (u : Simplex) :
  u ∈ remove_without_validation s K ↔ u ≠ s ∧ u ∈ K.
Proof. unfold remove_without_validation. by rewrite list_elem_of_filter. Qed.

Lemma NoDup_remove (s : Simplex) (K : SimplicialComplex) :
  NoDup K → NoDup (remove_without_validation s K).
Proof. apply NoDup_filter. Qed.

Lemma length_remove_gen (s : Simplex) (K : SimplicialComplex) :
  NoDup K →
  length (remove_without_validation s K) + (if decide (s ∈ K) then 1 else 0)
  = length K.
Proof.
  unfold remove_without_validation.
  induction K as [|u K IH]; intros Hnd; [done|].
  apply NoDup_cons in Hnd as [Hu Hnd]. specialize (IH Hnd).
  rewrite filter_cons. destruct (decide (u ≠ s)) as [Hne|Heq].
  - rewrite (decide_ext (s ∈ u :: K) (s ∈ K)) by set_solver. simpl; lia.
  - apply dec_stable in Heq. subst u.
    rewrite decide_False in IH by done.
    rewrite decide_True by set_solver. simpl; lia.
Qed.

Lemma length_remove (s : Simplex) (K : SimplicialComplex) :
  NoDup K → s ∈ K → S (length (remove_without_validation s K)) = length K.
Proof.
  intros Hnd Hin. pose proof (length_remove_gen s K Hnd) as Hl.
  rewrite decide_True in Hl by done. lia.
Qed.

Lemma length_remove_two (s t : Simplex) (K : SimplicialComplex) :
  NoDup K → s ∈ K → t ∈ K → s ≠ t →
  length (remove_without_validation t (remove_without_validation s K)) + 2
  = length K.
Proof.
  intros Hnd Hs Ht Hne.
  rewrite <- (length_remove s K) by done.
  rewrite <- (length_remove t (remove_without_validation s K)).
  - lia.
  - by apply NoDup_remove.
  - apply elem_of_remove. split; [congruence|done].
Qed.

(** ** The boundary of a simplex *)

Lemma drop_each_length (s f : Simplex) :
  f ∈ drop_each s → S (length f) = length s.
Proof.
  revert f. induction s as [|v r IH]; intros f Hf; simpl in Hf.
  - by apply elem_of_nil in Hf.
  - apply elem_of_cons in Hf as [->|Hf]; [done|].
    apply list_elem_of_fmap in Hf as (g & -> & Hg). simpl. f_equal. by apply IH.
Qed.

Lemma boundary_length (s f : Simplex) :
  f ∈ boundary s → S (length f) = length s ∧ 1 ≤ length f.
Proof.
  intros Hf. destruct s as [|v [|w r]]; try by apply elem_of_nil in Hf.
  apply drop_each_length in Hf. simpl in *. lia.
Qed.

Lemma boundary_subset (s f : Simplex) (v : nat) :
  f ∈ boundary s → v ∈ f → v ∈ s.
Proof.
  assert (Hd : ∀ s f, f ∈ drop_each s → v ∈ f → v ∈ s).
  { clear. induction s as [|w r IH]; intros f Hf Hv; simpl in Hf.
    - by apply elem_of_nil in Hf.
    - apply elem_of_cons in Hf as [->|Hf]; [set_solver|].
      apply list_elem_of_fmap in Hf as (g & -> & Hg).
      apply elem_of_cons in Hv as [->|Hv]; [set_solver|].
      apply elem_of_cons. right. by apply (IH g). }
  intros Hf. destruct s as [|w [|w' r]]; try by apply elem_of_nil in Hf.
  by apply Hd.
Qed.

Lemma sorted_subset_eq (f u : Simplex) :
  StronglySorted lt f → StronglySorted lt u → length u ≤ length f →
  (∀ v, v ∈ f → v ∈ u) → f = u.
Proof.
  intros Hf Hu Hlen Hsub.
  apply (StronglySorted_unique_strong lt); [intros; lia|done|done|].
  apply submseteq_length_Permutation; [|done].
  apply NoDup_submseteq; [|done].
  clear -Hf. induction Hf as [|v f Hf IH Hv]; constructor; [|done].
  intros Hin. eapply Forall_forall in Hv; [|done]. lia.
Qed.

Lemma sorted_face (f u : Simplex) :
  StronglySorted lt f → StronglySorted lt u → length u = S (length f) →
  (∀ v, v ∈ f → v ∈ u) → f ∈ drop_each u.
Proof.
  intros Hf Hu. revert f Hf.
  induction Hu as [|a u Hu IH Ha]; intros f Hf Hlen Hsub; [done|].
  cbn [drop_each]. destruct f as [|b f].
  - destruct u; [set_solver|done].
  - apply StronglySorted_inv in Hf as [Hf Hb].
    destruct (decide (b = a)) as [->|Hne].
    + apply elem_of_cons. right. apply list_elem_of_fmap. exists f.
      split; [done|]. apply IH; [done|simpl in Hlen; lia|].
      intros v Hv. assert (v ∈ a :: u) as Hvu by (apply Hsub; set_solver).
      apply elem_of_cons in Hvu as [->|]; [|done].
      eapply Forall_forall in Hb; [|done]. lia.
    + apply elem_of_cons. left.
      apply sorted_subset_eq; [by constructor|done|simpl in *; lia|].
      assert (Hb' : b ∈ u).
      { assert (b ∈ a :: u) as Hbu by (apply Hsub; set_solver).
        apply elem_of_cons in Hbu as [|]; done. }
      intros v Hv. assert (v ∈ a :: u) as Hvu by (apply Hsub; set_solver).
      apply elem_of_cons in Hvu as [->|]; [|done]. exfalso.
      eapply Forall_forall in Ha; [|exact Hb'].
      apply elem_of_cons in Hv as [|Hv]; [lia|].
      eapply Forall_forall in Hb; [|exact Hv]. lia.
Qed.

Lemma intersect_eq_subset (f u : Simplex) (v : nat) :
  intersect f u = f → v ∈ f → v ∈ u.
Proof.
  unfold intersect. intros Heq Hv. rewrite <- Heq in Hv.
  by apply list_elem_of_filter in Hv as [? _].
Qed.

(** ** The coface map built by [buildCofaceMap] *)

Lemma add_coface_fold_lookup (u : Simplex) (faces : list Simplex)
  (acc : CofaceMap) (s : Simplex) :
  foldl (add_coface u) acc faces !! s =
    if decide (s ∈ faces) then Some (default ∅ (acc !! s) ∪ {[u]})
    else acc !! s.
Proof.
  revert acc. induction faces as [|f faces IH]; intros acc; cbn [foldl].
  - case_decide as Hd; [by apply elem_of_nil in Hd|done].
  - rewrite IH. unfold add_coface.
    destruct (decide (s = f)) as [->|Hne].
    + rewrite lookup_insert_eq. simpl.
      rewrite (decide_True (P := f ∈ f :: faces)) by set_solver.
      destruct (decide (f ∈ faces)); f_equal; set_solver.
    + rewrite lookup_insert_ne by done.
      apply decide_ext. set_solver.
Qed.

Lemma buildCofaceMap_step_lookup (acc : CofaceMap) (u s : Simplex) :
  buildCofaceMap_step acc u !! s =
    if decide (s = u ∨ s ∈ boundary u)
    then Some (default ∅ (acc !! s) ∪ cofaces_of [u] s)
    else acc !! s.
Proof.
  unfold buildCofaceMap_step. rewrite add_coface_fold_lookup.
  assert (Hc : ∀ x, x ∈ cofaces_of [u] s ↔ x = u ∧ s ∈ boundary u).
  { intros x. rewrite elem_of_cofaces_of. set_solver. }
  destruct (decide (s ∈ boundary u)) as [Hin|Hnin].
  - rewrite decide_True by tauto. f_equal.
    destruct (acc !! u) eqn:Hu; [|destruct (decide (s = u)) as [->|]];
      rewrite ?lookup_insert_eq, ?lookup_insert_ne by done; simpl;
      try rewrite Hu; simpl; set_solver.
  - destruct (decide (s = u)) as [->|Hne].
    + rewrite decide_True by tauto.
      destruct (acc !! u) eqn:Hu; rewrite ?lookup_insert_eq, ?Hu; simpl;
        f_equal; set_solver.
    + rewrite decide_False by tauto.
      destruct (acc !! u); [done|]. by rewrite lookup_insert_ne.
Qed.

Lemma cofaces_of_cons (u : Simplex) (K : SimplicialComplex) (s : Simplex) :
  cofaces_of (u :: K) s = cofaces_of [u] s ∪ cofaces_of K s.
Proof.
  apply set_eq. intros x. rewrite elem_of_union, !elem_of_cofaces_of.
  set_solver.
Qed.

Lemma buildCofaceMap_fold_lookup (K : SimplicialComplex) (acc : CofaceMap)
  (s : Simplex) :
  foldl buildCofaceMap_step acc K !! s =
    if decide (s ∈ K ∨ cofaces_of K s ≠ ∅)
    then Some (default ∅ (acc !! s) ∪ cofaces_of K s)
    else acc !! s.
Proof.
  revert acc. induction K as [|u K IH]; intros acc; cbn [foldl].
  - case_decide as Hd; [|done]. destruct Hd as [Hin|Hne]; [set_solver|].
    exfalso. apply Hne. apply set_eq. intros x. rewrite elem_of_cofaces_of.
    set_solver.
  - rewrite IH, buildCofaceMap_step_lookup, (cofaces_of_cons u K).
    assert (Hu : cofaces_of [u] s ≠ ∅ ↔ s ∈ boundary u).
    { split.
      - intros Hne. apply set_choose_L in Hne as [x Hx].
        apply elem_of_cofaces_of in Hx as [Hx1 Hx2]. set_solver.
      - intros Hin Hempty.
        assert (u ∈ cofaces_of [u] s) as Hx
          by (apply elem_of_cofaces_of; set_solver).
        rewrite Hempty in Hx. set_solver. }
    assert (Hc : (s ∈ u :: K ∨ cofaces_of [u] s ∪ cofaces_of K s ≠ ∅) ↔
                 (s = u ∨ s ∈ boundary u) ∨ (s ∈ K ∨ cofaces_of K s ≠ ∅)).
    { rewrite elem_of_cons, empty_union_L, <- Hu.
      destruct (decide (cofaces_of [u] s = ∅)), (decide (cofaces_of K s = ∅));
        tauto. }
    rewrite (decide_ext _ _ _ _ Hc).
    destruct (decide (s = u ∨ s ∈ boundary u)) as [H1|H1];
      destruct (decide (s ∈ K ∨ cofaces_of K s ≠ ∅)) as [H2|H2].
    + rewrite decide_True by tauto. simpl. f_equal. set_solver.
    + rewrite decide_True by tauto. f_equal.
      assert (cofaces_of K s = ∅) as -> by (apply dec_stable; tauto).
      set_solver.
    + rewrite decide_True by tauto. f_equal.
      assert (cofaces_of [u] s = ∅) as -> by (apply dec_stable; tauto).
      set_solver.
    + rewrite decide_False by tauto. done.
Qed.

Lemma buildCofaceMap_consistent (K : SimplicialComplex) :
  face_closed K → coface_consistent K (buildCofaceMap K).
Proof.
  intros Hcl s. unfold buildCofaceMap.
  rewrite buildCofaceMap_fold_lookup, lookup_empty. simpl.
  destruct (decide (s ∈ K)) as [Hin|Hnin].
  - rewrite decide_True by tauto. f_equal. set_solver.
  - rewrite decide_False; [done|]. intros [?|Hne]; [done|].
    apply set_choose_L in Hne as [x Hx].
    apply elem_of_cofaces_of in Hx as [Hx Hs]. eauto.
Qed.
(** ** [getFreeFace] *)

Lemma free_face_test (C : gset Simplex) (s : Simplex) :
  bool_decide (size C = 1) && bool_decide (s ∈ C) = true ↔ C = {[s]}.
Proof.
  rewrite andb_true_iff, !bool_decide_eq_true. split.
  - intros [Hsz Hin]. apply size_1_elem_of in Hsz as [x Hx].
    apply leibniz_equiv in Hx. subst C. set_solver.
  - intros ->. split; [apply size_singleton|set_solver].
Qed.

Lemma firstFreeFace_Some (cofaces : CofaceMap) (s : Simplex)
  (faces : list Simplex) (f : Simplex) :
  firstFreeFace cofaces s faces = Some f →
  f = [] ∨ (f ∈ faces ∧ cofaces !! f = Some {[s]}).
Proof.
  induction faces as [|g faces IH]; simpl; intros Hf.
  - left. congruence.
  - unfold cofaces_at in Hf.
    destruct (cofaces !! g) as [C|] eqn:Hg; simpl in Hf; [|done].
    destruct (bool_decide (size C = 1) && bool_decide (s ∈ C)) eqn:Ht.
    + apply free_face_test in Ht. subst C. injection Hf as <-.
      right. split; [set_solver|done].
    + destruct (IH Hf) as [?|[? ?]]; [by left|right]. set_solver.
Qed.

Lemma firstFreeFace_total (cofaces : CofaceMap) (s : Simplex)
  (faces : list Simplex) :
  (∀ f, f ∈ faces → is_Some (cofaces !! f)) →
  is_Some (firstFreeFace cofaces s faces).
Proof.
  induction faces as [|g faces IH]; simpl; intros Hall; [by eexists|].
  unfold cofaces_at.
  destruct (Hall g) as [C ->]; [set_solver|]. simpl.
  destruct (_ && _); [by eexists|]. apply IH. set_solver.
Qed.

Lemma firstFreeFace_finds (cofaces : CofaceMap) (s : Simplex)
  (faces : list Simplex) (t : Simplex) :
  (∀ f, f ∈ faces → is_Some (cofaces !! f)) →
  t ∈ faces → cofaces !! t = Some {[s]} →
  ∃ f, firstFreeFace cofaces s faces = Some f ∧ f ∈ faces.
Proof.
  induction faces as [|g faces IH]; simpl; intros Hall Hin Ht.
  - by apply elem_of_nil in Hin.
  - unfold cofaces_at.
    destruct (Hall g) as [C HC]; [set_solver|]. rewrite HC. simpl.
    destruct (bool_decide (size C = 1) && bool_decide (s ∈ C)) eqn:Htest.
    + exists g. split; [done|set_solver].
    + apply elem_of_cons in Hin as [->|Hin].
      * rewrite Ht in HC. injection HC as <-.
        assert (bool_decide (size ({[s]} : gset Simplex) = 1)
                && bool_decide (s ∈ ({[s]} : gset Simplex)) = true) as Hyes
          by by apply free_face_test.
        congruence.
      * destruct IH as (f & Hf & Hfin); [set_solver|done|done|].
        exists f. split; [done|set_solver].
Qed.

Lemma consistent_lookup_Some (K : SimplicialComplex) (cofaces : CofaceMap)
  (s : Simplex) (C : gset Simplex) :
  coface_consistent K cofaces → cofaces !! s = Some C →
  s ∈ K ∧ C = cofaces_of K s.
Proof.
  intros Hc Hs. rewrite Hc in Hs. case_decide; [|done].
  split; [done|congruence].
Qed.

Lemma consistent_lookup_member (K : SimplicialComplex) (cofaces : CofaceMap)
  (s : Simplex) :
  coface_consistent K cofaces → s ∈ K → cofaces !! s = Some (cofaces_of K s).
Proof. intros Hc Hs. rewrite Hc. by rewrite decide_True. Qed.

Lemma getFreeFace_total (K : SimplicialComplex) (cofaces : CofaceMap)
  (s : Simplex) :
  coface_consistent K cofaces → face_closed K → s ∈ K →
  is_Some (getFreeFace cofaces s).
Proof.
  intros Hc Hcl Hs. unfold getFreeFace, isPrincipal, cofaces_at.
  rewrite (consistent_lookup_member K) by done. simpl.
  destruct (negb _); [by eexists|].
  apply firstFreeFace_total. intros f Hf.
  rewrite (consistent_lookup_member K); [by eexists|done|by eapply Hcl].
Qed.

Lemma getFreeFace_pair (K : SimplicialComplex) (cofaces : CofaceMap)
  (s f : Simplex) :
  coface_consistent K cofaces →
  getFreeFace cofaces s = Some f → simplex_bool f = true →
  admissible_pair K cofaces s f.
Proof.
  intros Hc Hg Hb. unfold getFreeFace, isPrincipal, cofaces_at in Hg.
  destruct (cofaces !! s) as [C|] eqn:Hs; simpl in Hg; [|done].
  destruct (bool_decide_reflect (C = ∅)) as [->|Hne]; simpl in Hg.
  - apply firstFreeFace_Some in Hg as [->|[Hin Hf]]; [done|].
    destruct (consistent_lookup_Some K cofaces s ∅ Hc Hs) as [HsK _].
    destruct (consistent_lookup_Some K cofaces f {[s]} Hc Hf) as [HfK _].
    unfold admissible_pair. auto 10.
  - injection Hg as <-. done.
Qed.

Lemma getFreeFace_admissible (K : SimplicialComplex) (cofaces : CofaceMap)
  (s t : Simplex) :
  coface_consistent K cofaces → face_closed K →
  admissible_pair K cofaces s t →
  ∃ f, getFreeFace cofaces s = Some f ∧ simplex_bool f = true.
Proof.
  intros Hc Hcl (Hs & Ht & Hb & Hcs & Hct).
  unfold getFreeFace, isPrincipal, cofaces_at. rewrite Hcs. simpl.
  rewrite bool_decide_eq_true_2 by done. simpl.
  destruct (firstFreeFace_finds cofaces s (boundary s) t) as (f & Hf & Hin);
    [|done|done|].
  - intros f Hf. rewrite (consistent_lookup_member K); [by eexists|done|].
    by apply (Hcl s f).
  - exists f. split; [done|].
    destruct f; [|done]. apply boundary_length in Hin. simpl in Hin. lia.
Qed.
(** ** The collapse mutation of the coface map *)

Lemma removeSimplices_Some (s t : Simplex) (cofaces : CofaceMap)
  (sigma : Simplex) (C : gset Simplex) :
  cofaces !! sigma = Some C →
  removeSimplices s t cofaces sigma = Some (<[sigma := C ∖ {[s]} ∖ {[t]}]> cofaces).
Proof.
  intros Hs. unfold removeSimplices, cofaces_at. rewrite Hs. simpl.
  rewrite lookup_insert_eq. simpl. by rewrite insert_insert_eq.
Qed.

Lemma removeSimplices_for_each (s t : Simplex) (faces : list Simplex)
  (cofaces : CofaceMap) :
  (∀ f, f ∈ faces → is_Some (cofaces !! f)) →
  ∃ cofaces',
    for_each (removeSimplices s t) faces cofaces = Some cofaces' ∧
    ∀ x, cofaces' !! x =
           if decide (x ∈ faces)
           then (λ C, C ∖ {[s]} ∖ {[t]}) <$> cofaces !! x
           else cofaces !! x.
Proof.
  revert cofaces. induction faces as [|g faces IH]; intros cofaces Hall.
  - exists cofaces. split; [done|]. intros x.
    case_decide as Hx; [by apply elem_of_nil in Hx|done].
  - destruct (Hall g) as [C HC]; [set_solver|].
    cbn [for_each]. rewrite (removeSimplices_Some s t cofaces g C HC). simpl.
    destruct (IH (<[g := C ∖ {[s]} ∖ {[t]}]> cofaces)) as (c' & Hc' & Hlk).
    { intros f Hf. destruct (decide (f = g)) as [->|Hne].
      - rewrite lookup_insert_eq. by eexists.
      - rewrite lookup_insert_ne by done. apply Hall. set_solver. }
    exists c'. split; [done|]. intros x. rewrite Hlk.
    destruct (decide (x = g)) as [->|Hne].
    + rewrite lookup_insert_eq, HC, (decide_True (P := g ∈ g :: faces))
        by set_solver. simpl.
      case_decide; simpl; f_equal; set_solver.
    + rewrite lookup_insert_ne by done. apply decide_ext. set_solver.
Qed.

Lemma admissible_pair_ne (K : SimplicialComplex) (cofaces : CofaceMap)
  (s t : Simplex) :
  admissible_pair K cofaces s t → s ≠ t.
Proof.
  intros (_ & _ & _ & Hs & Ht) ->. rewrite Hs in Ht.
  injection Ht as Ht. set_solver.
Qed.

(** The two removals of a collapse meet the precondition of the unchecked
    removal: [s] is a face of no member, and [t] is a face of no member
    but [s]. *)
Lemma admissible_pair_cofaces (K : SimplicialComplex) (cofaces : CofaceMap)
  (s t : Simplex) :
  coface_consistent K cofaces → admissible_pair K cofaces s t →
  cofaces_of K s = ∅ ∧ cofaces_of K t = {[s]}.
Proof.
  intros Hc (Hs & Ht & _ & Hcs & Hct).
  rewrite (consistent_lookup_member K) in Hcs, Hct by done.
  split; congruence.
Qed.

Lemma collapse_face_closed (K : SimplicialComplex) (cofaces : CofaceMap)
  (s t : Simplex) :
  coface_consistent K cofaces → face_closed K → admissible_pair K cofaces s t →
  face_closed (remove_without_validation t (remove_without_validation s K)).
Proof.
  intros Hc Hcl Hp u f Hu Hf.
  destruct (admissible_pair_cofaces K cofaces s t Hc Hp) as [Hes Het].
  rewrite !elem_of_remove in Hu. destruct Hu as (Hut & Hus & Hu).
  assert (Hco : u ∈ cofaces_of K f) by by apply elem_of_cofaces_of.
  rewrite !elem_of_remove. repeat split.
  - intros ->. rewrite Het in Hco. set_solver.
  - intros ->. rewrite Hes in Hco. set_solver.
  - by apply (Hcl u f).
Qed.

Lemma collapse_complex (K : SimplicialComplex) (cofaces : CofaceMap)
  (s t : Simplex) :
  coface_consistent K cofaces → complex K → admissible_pair K cofaces s t →
  complex (remove_without_validation t (remove_without_validation s K)).
Proof.
  intros Hc [Hnd Hcl] Hp. split.
  - by do 2 apply NoDup_remove.
  - by apply (collapse_face_closed K cofaces).
Qed.

Lemma cofaces_of_remove (K : SimplicialComplex) (s t x : Simplex) :
  cofaces_of (remove_without_validation t (remove_without_validation s K)) x
  = cofaces_of K x ∖ {[s]} ∖ {[t]}.
Proof.
  apply set_eq. intros u.
  rewrite !elem_of_difference, !elem_of_cofaces_of, !elem_of_remove,
    !elem_of_singleton. tauto.
Qed.

Lemma collapseMutation_consistent (K : SimplicialComplex) (cofaces : CofaceMap)
  (s t : Simplex) :
  coface_consistent K cofaces → face_closed K → admissible_pair K cofaces s t →
  ∃ cofaces',
    collapseMutation s t cofaces = Some cofaces' ∧
    coface_consistent
      (remove_without_validation t (remove_without_validation s K)) cofaces'.
Proof.
  intros Hc Hcl Hp. pose proof Hp as (Hs & Ht & Hb & Hcs & Hct).
  unfold collapseMutation.
  destruct (removeSimplices_for_each s t (boundary s) cofaces) as (c1 & -> & H1).
  { intros f Hf. rewrite (consistent_lookup_member K); [by eexists|done|].
    by apply (Hcl s f). }
  simpl.
  destruct (removeSimplices_for_each s t (boundary t) c1) as (c2 & -> & H2).
  { intros f Hf. rewrite H1, (consistent_lookup_member K cofaces f Hc)
      by by apply (Hcl t f).
    case_decide; by eexists. }
  simpl. eexists. split; [done|]. intros x.
  rewrite cofaces_of_remove.
  destruct (decide (x = t)) as [->|Hxt].
  { rewrite lookup_delete_eq, decide_False; [done|].
    rewrite !elem_of_remove. tauto. }
  rewrite lookup_delete_ne by done.
  destruct (decide (x = s)) as [->|Hxs].
  { rewrite lookup_delete_eq, decide_False; [done|].
    rewrite !elem_of_remove. tauto. }
  rewrite lookup_delete_ne, H2, H1, Hc by done.
  destruct (decide (x ∈ K)) as [Hx|Hx].
  - rewrite (decide_True (P := x ∈ remove_without_validation _ _))
      by (rewrite !elem_of_remove; tauto).
    assert (Hns : x ∉ boundary s → s ∉ cofaces_of K x)
      by (rewrite elem_of_cofaces_of; tauto).
    assert (Hnt : x ∉ boundary t → t ∉ cofaces_of K x)
      by (rewrite elem_of_cofaces_of; tauto).
    repeat case_decide; simpl; f_equal; set_solver.
  - rewrite (decide_False (P := x ∈ remove_without_validation _ _))
      by (rewrite !elem_of_remove; tauto).
    by repeat case_decide.
Qed.
Lemma collapse_pair_preserved (K : SimplicialComplex) (cofaces cofaces' : CofaceMap)
  (s t s' t' : Simplex) :
  coface_consistent K cofaces →
  coface_consistent
    (remove_without_validation t (remove_without_validation s K)) cofaces' →
  admissible_pair K cofaces s t → admissible_pair K cofaces s' t' → s' ≠ s →
  admissible_pair
    (remove_without_validation t (remove_without_validation s K)) cofaces' s' t'.
Proof.
  intros Hc Hc' Hp Hp' Hne.
  destruct (admissible_pair_cofaces K cofaces s t Hc Hp) as [Hes Het].
  destruct (admissible_pair_cofaces K cofaces s' t' Hc Hp') as [Hes' Het'].
  destruct Hp' as (Hs' & Ht' & Hb' & _ & _).
  assert (s' ≠ t) by (intros ->; rewrite Hes' in Het; set_solver).
  assert (t' ≠ s) by (intros ->; rewrite Hes in Het'; set_solver).
  assert (t' ≠ t) by (intros ->; rewrite Het in Het'; set_solver).
  assert (s' ∈ remove_without_validation t (remove_without_validation s K))
    by (rewrite !elem_of_remove; tauto).
  assert (t' ∈ remove_without_validation t (remove_without_validation s K))
    by (rewrite !elem_of_remove; tauto).
  repeat split; try done.
  - rewrite (consistent_lookup_member _ _ _ Hc') by done.
    rewrite cofaces_of_remove, Hes'. f_equal. set_solver.
  - rewrite (consistent_lookup_member _ _ _ Hc') by done.
    rewrite cofaces_of_remove, Het'. f_equal. set_solver.
Qed.

(** ** Probing for admissible pairs *)

Section Probe.

Context {M : Type} `{UnorderedMap M}.

Lemma probed_nil K cofaces admissible : probed K cofaces [] admissible admissible.
Proof. split; [done|done|]. intros s f Hs. by apply elem_of_nil in Hs. Qed.

Lemma insert_pairs_admissible (K : SimplicialComplex) (cofaces : CofaceMap)
  (admissible : M) (s f : Simplex) :
  admissible_pair K cofaces s f →
  pairs_admissible K cofaces admissible →
  pairs_admissible K cofaces (um_insert s f admissible).
Proof.
  intros Hp Hadm s' t'. rewrite um_content_insert.
  destruct (um_content admissible !! s) eqn:Hs; [apply Hadm|].
  destruct (decide (s' = s)) as [->|Hne].
  - rewrite lookup_insert_eq. by intros [= <-].
  - rewrite lookup_insert_ne by done. apply Hadm.
Qed.

Lemma insert_content_mono (admissible : M) (s f x : Simplex) :
  is_Some (um_content admissible !! x) →
  is_Some (um_content (um_insert s f admissible) !! x).
Proof.
  intros Hx. rewrite um_content_insert.
  destruct (um_content admissible !! s) eqn:Hs; [done|].
  destruct (decide (x = s)) as [->|Hne].
  - rewrite Hs in Hx. by destruct Hx.
  - by rewrite lookup_insert_ne.
Qed.

Lemma insert_content_key (admissible : M) (s f : Simplex) :
  is_Some (um_content (um_insert s f admissible) !! s).
Proof.
  rewrite um_content_insert.
  destruct (um_content admissible !! s) eqn:Hs; [by rewrite Hs|].
  rewrite lookup_insert_eq. by eexists.
Qed.

Lemma probe_probed (K : SimplicialComplex) (cofaces : CofaceMap)
  (admissible : M) (s : Simplex) :
  coface_consistent K cofaces → face_closed K → s ∈ K →
  ∃ admissible',
    probe cofaces admissible s = Some admissible' ∧
    probed K cofaces [s] admissible admissible'.
Proof.
  intros Hc Hcl Hs. unfold probe.
  destruct (getFreeFace_total K cofaces s Hc Hcl Hs) as [f Hf].
  rewrite Hf. simpl. eexists. split; [done|].
  destruct (simplex_bool f) eqn:Hb.
  - split.
    + intros x. apply insert_content_mono.
    + apply insert_pairs_admissible. by apply getFreeFace_pair.
    + intros s' f' Hs' _ _. apply list_elem_of_singleton in Hs' as ->.
      apply insert_content_key.
  - split; [done|done|].
    intros s' f' Hs' Hf' Hb'. apply list_elem_of_singleton in Hs' as ->.
    congruence.
Qed.

Lemma probed_app K cofaces l1 l2 (a1 a2 a3 : M) :
  probed K cofaces l1 a1 a2 → probed K cofaces l2 a2 a3 →
  probed K cofaces (l1 ++ l2) a1 a3.
Proof.
  intros [Hm1 Hp1 Hf1] [Hm2 Hp2 Hf2]. split.
  - auto.
  - auto.
  - intros s f Hs Hf Hb. apply elem_of_app in Hs as [Hs|Hs]; eauto.
Qed.

Lemma probed_skip K cofaces l1 l2 (a1 a2 : M) :
  probed K cofaces l1 a1 a2 → l2 ⊆ l1 → probed K cofaces l2 a1 a2.
Proof.
  intros [Hm Hp Hf] Hsub. split; [done|done|].
  intros s f Hs. apply Hf. by apply Hsub.
Qed.

Lemma probe_for_each (K : SimplicialComplex) (cofaces : CofaceMap)
  (l : list Simplex) (admissible : M) :
  coface_consistent K cofaces → face_closed K → (∀ s, s ∈ l → s ∈ K) →
  ∃ admissible',
    for_each (probe cofaces) l admissible = Some admissible' ∧
    probed K cofaces l admissible admissible'.
Proof.
  intros Hc Hcl. revert admissible.
  induction l as [|s l IH]; intros admissible Hl.
  - exists admissible. split; [done|apply probed_nil].
  - destruct (probe_probed K cofaces admissible s) as (a1 & Ha1 & Hp1);
      [done|done|set_solver|].
    destruct (IH a1) as (a2 & Ha2 & Hp2); [set_solver|].
    exists a2. cbn [for_each]. rewrite Ha1. simpl. split; [done|].
    by apply (probed_app K cofaces [s] l admissible a1 a2).
Qed.

Lemma probe_except_for_each (K : SimplicialComplex) (cofaces : CofaceMap)
  (t : Simplex) (l : list Simplex) (admissible : M) :
  coface_consistent K cofaces → face_closed K →
  (∀ s, s ∈ l → s ≠ t → s ∈ K) →
  ∃ admissible',
    for_each (probe_except t cofaces) l admissible = Some admissible' ∧
    probed K cofaces (filter (λ s, t ≠ s) l) admissible admissible'.
Proof.
  intros Hc Hcl. revert admissible.
  induction l as [|s l IH]; intros admissible Hl.
  - exists admissible. split; [done|apply probed_nil].
  - cbn [for_each].
    assert (Hpe : probe_except t cofaces admissible s =
                  if decide (t ≠ s) then probe cofaces admissible s
                  else Some admissible) by done.
    rewrite Hpe. clear Hpe.
    destruct (decide (t ≠ s)) as [Hne|Heq];
      [rewrite filter_cons_True by done|rewrite filter_cons_False by done].
    + destruct (probe_probed K cofaces admissible s) as (a1 & Ha1 & Hp1);
        [done|done|apply Hl; [set_solver|done]|].
      destruct (IH a1) as (a2 & Ha2 & Hp2); [intros; apply Hl; set_solver|].
      exists a2. rewrite Ha1. simpl. split; [done|].
      by apply (probed_app K cofaces [s] _ admissible a1 a2).
    + simpl. apply IH. intros; apply Hl; set_solver.
Qed.

Lemma probe_for_each_irreducible (cofaces : CofaceMap) (l : list Simplex)
  (admissible : M) :
  (∀ s, s ∈ l → getFreeFace cofaces s = Some []) →
  for_each (probe cofaces) l admissible = Some admissible.
Proof.
  induction l as [|s l IH]; intros Hl; [done|].
  cbn [for_each].
  assert (probe cofaces admissible s = Some admissible) as ->.
  { unfold probe. by rewrite Hl by set_solver. }
  simpl. apply IH. set_solver.
Qed.

End Probe.

(** ** The loop invariant of [spine] *)

Section Invariant.

Context {M : Type} `{UnorderedMap M}.

Lemma pairs_admissible_new (K : SimplicialComplex) (cofaces : CofaceMap) :
  pairs_admissible K cofaces (um_new : M).
Proof. intros s t. by rewrite um_content_new, lookup_empty. Qed.

Lemma probed_irreducible (K : SimplicialComplex) (cofaces : CofaceMap)
  (admissible admissible' : M) :
  coface_consistent K cofaces → face_closed K →
  probed K cofaces K admissible admissible' →
  um_content admissible' = ∅ → irreducible K cofaces.
Proof.
  intros Hc Hcl [_ _ Hfound] Hempty s Hs.
  destruct (getFreeFace_total K cofaces s Hc Hcl Hs) as [f Hf].
  destruct (simplex_bool f) eqn:Hb.
  - destruct (Hfound s f Hs Hf Hb) as [x Hx].
    by rewrite Hempty, lookup_empty in Hx.
  - by destruct f.
Qed.

Lemma getPrincipalFaces_probed (K : SimplicialComplex) (cofaces : CofaceMap) :
  coface_consistent K cofaces → face_closed K →
  ∃ admissible : M,
    getPrincipalFaces cofaces K = Some admissible ∧
    probed K cofaces K um_new admissible.
Proof. intros Hc Hcl. by apply probe_for_each. Qed.

Lemma getPrincipalFaces_irreducible (K : SimplicialComplex) (cofaces : CofaceMap) :
  irreducible K cofaces → getPrincipalFaces cofaces K = Some (um_new : M).
Proof. intros Hirr. by apply probe_for_each_irreducible. Qed.

Lemma spine_init_Inv (K : SimplicialComplex) :
  complex K →
  ∃ st, spine_init K = Some st ∧ Inv st ∧ st_L st = K
        ∧ st_cofaces st = buildCofaceMap K.
Proof.
  intros HK. pose proof (complex_closed K HK) as Hcl.
  pose proof (buildCofaceMap_consistent K Hcl) as Hc.
  destruct (getPrincipalFaces_probed K (buildCofaceMap K) Hc Hcl)
    as (adm & Hadm & Hp).
  unfold spine_init. rewrite Hadm. simpl. eexists. split; [done|].
  split; [|done]. split; simpl; try done.
  - apply (probed_pairs _ _ _ _ _ Hp), pairs_admissible_new.
  - by apply (probed_irreducible K _ um_new adm).
Qed.

Lemma um_begin_pair (admissible : M) :
  um_empty admissible = false →
  ∃ s t, um_begin admissible = Some (s, t)
         ∧ um_content admissible !! s = Some t.
Proof.
  intros Hne.
  destruct (um_begin_nonempty admissible) as [[s t] Hb].
  - intros Hempty. apply um_empty_spec in Hempty. congruence.
  - exists s, t. split; [done|]. by apply um_begin_member.
Qed.

(** The body of the loop runs to its end from every state of the invariant
    in which the loop condition holds, and re-establishes the invariant. *)
Lemma spine_body_Inv (st : State) :
  Inv st → um_empty (st_admissible st) = false →
  ∃ s t st',
    um_begin (st_admissible st) = Some (s, t) ∧
    admissible_pair (st_L st) (st_cofaces st) s t ∧
    spine_body st = Some st' ∧
    st_L st' =
      remove_without_validation t (remove_without_validation s (st_L st)) ∧
    collapseMutation s t (st_cofaces st) = Some (st_cofaces st') ∧
    Inv st'.
Proof.
  intros [HK Hc Hpairs _] Hne. destruct st as [L c adm]. simpl in *.
  destruct (um_begin_pair adm Hne) as (s & t & Hb & Hst).
  pose proof (Hpairs s t Hst) as Hp.
  pose proof (complex_closed L HK) as Hcl.
  destruct (collapseMutation_consistent L c s t Hc Hcl Hp) as (c' & Hmut & Hc').
  pose proof (collapse_complex L c s t Hc HK Hp) as HK'.
  pose proof (complex_closed _ HK') as Hcl'.
  destruct (admissible_pair_cofaces L c s t Hc Hp) as [Hes Het].
  pose proof (admissible_pair_ne L c s t Hp) as Hsnt.
  pose proof Hp as (HsL & HtL & Hts & _ & _).
  set (L' := remove_without_validation t (remove_without_validation s L)) in *.
  (* the pairs that stay in the map *)
  assert (Hp1 : pairs_admissible L' c' (um_erase s adm)).
  { intros s' t'. rewrite um_content_erase.
    destruct (decide (s' = s)) as [->|Hs']; [by rewrite lookup_delete_eq|].
    rewrite lookup_delete_ne by done. intros Hst'.
    by apply (collapse_pair_preserved L c c' s t s' t'); auto. }
  (* the re-probe of the faces of s *)
  destruct (probe_except_for_each L' c' t (boundary s) (um_erase s adm))
    as (adm2 & Hadm2 & Hpr2); [done|done| |].
  { intros f Hf Hft. unfold L'. rewrite !elem_of_remove.
    repeat split; [done| |by apply (Hcl s f)].
    intros ->. assert (s ∈ cofaces_of L s) by by apply elem_of_cofaces_of.
    set_solver. }
  (* the re-probe of the faces of t *)
  destruct (probe_for_each L' c' (boundary t) adm2)
    as (adm3 & Hadm3 & Hpr3); [done|done| |].
  { intros g Hg. unfold L'. rewrite !elem_of_remove.
    assert (t ∈ cofaces_of L g) as Hco by by apply elem_of_cofaces_of.
    repeat split; [| |by apply (Hcl t g)].
    - intros ->. rewrite Het in Hco. set_solver.
    - intros ->. rewrite Hes in Hco. set_solver. }
  assert (Hp3 : pairs_admissible L' c' adm3).
  { apply (probed_pairs _ _ _ _ _ Hpr3), (probed_pairs _ _ _ _ _ Hpr2), Hp1. }
  unfold spine_body. simpl. rewrite Hb. simpl. rewrite Hmut. simpl.
  unfold reprobe. rewrite Hadm2. simpl. rewrite Hadm3. simpl.
  destruct (um_empty adm3) eqn:He3.
  - destruct (getPrincipalFaces_probed L' c' Hc' Hcl') as (adm4 & Hadm4 & Hpr4).
    fold L'. rewrite Hadm4. simpl.
    exists s, t, (mkState L' c' adm4). split_and!; try done.
    split; simpl; try done.
    + apply (probed_pairs _ _ _ _ _ Hpr4), pairs_admissible_new.
    + by apply (probed_irreducible L' c' um_new adm4).
  - simpl. exists s, t, (mkState L' c' adm3). split_and!; try done.
    split; simpl; try done.
    intros Hempty. apply um_empty_spec in Hempty. congruence.
Qed.

Lemma spine_step_Inv (st st' : State) :
  Inv st → spine_step st st' → Inv st'.
Proof.
  intros HI [Hne Hbody].
  destruct (spine_body_Inv st HI Hne) as (s & t & st'' & _ & _ & Hb & _ & _ & HI').
  congruence.
Qed.

Lemma rtc_spine_step_Inv (st st' : State) :
  Inv st → rtc spine_step st st' → Inv st'.
Proof. intros HI Hr. induction Hr; eauto using spine_step_Inv. Qed.

Lemma reachable_Inv (K : SimplicialComplex) (st : State) :
  complex K → reachable K st → Inv st.
Proof.
  intros HK (st0 & Hinit & Hr).
  destruct (spine_init_Inv K HK) as (st1 & Hinit' & HI & _).
  apply (rtc_spine_step_Inv st0); [congruence|done].
Qed.

End Invariant.

(** ** Elementary collapses *)

Lemma boundary_sign (s f : Simplex) : f ∈ boundary s → (sign s + sign f = 0)%Z.
Proof.
  intros Hf. apply boundary_length in Hf as [Hl Hpos]. unfold sign, dimension.
  rewrite <- Hl. replace (S (length f) - 1) with (S (length f - 1)) by lia.
  rewrite Nat.even_succ, <- Nat.negb_even.
  destruct (Nat.even (length f - 1)); simpl; lia.
Qed.

Lemma euler_remove (s : Simplex) (K : SimplicialComplex) :
  NoDup K → s ∈ K →
  (euler (remove_without_validation s K) = euler K - sign s)%Z.
Proof.
  unfold remove_without_validation, euler.
  induction K as [|u K IH]; intros Hnd Hin.
  - by apply elem_of_nil in Hin.
  - apply NoDup_cons in Hnd as [Hu Hnd]. rewrite filter_cons.
    destruct (decide (u ≠ s)) as [Hne|Heq]; simpl.
    + rewrite IH; [lia|done|]. apply elem_of_cons in Hin as [->|]; done.
    + apply dec_stable in Heq. subst u.
      assert (filter (λ u, u ≠ s) K = K) as ->; [|lia].
      clear IH Hin Hnd. induction K as [|w K IH]; [done|].
      rewrite filter_cons_True by set_solver. f_equal. apply IH. set_solver.
Qed.

Lemma sublist_remove (s : Simplex) (K : SimplicialComplex) :
  remove_without_validation s K `sublist_of` K.
Proof. apply sublist_filter. Qed.

Lemma admissible_pair_collapse_by (K : SimplicialComplex) (cofaces : CofaceMap)
  (s t : Simplex) :
  coface_consistent K cofaces → admissible_pair K cofaces s t →
  collapse_by s t K
    (remove_without_validation t (remove_without_validation s K)).
Proof.
  intros Hc Hp.
  destruct (admissible_pair_cofaces K cofaces s t Hc Hp) as [Hes Het].
  destruct Hp as (Hs & Ht & Hb & _ & _). by repeat split.
Qed.

Lemma collapse_by_admissible_pair (K K' : SimplicialComplex) (cofaces : CofaceMap)
  (s t : Simplex) :
  coface_consistent K cofaces → face_closed K → collapse_by s t K K' →
  admissible_pair K cofaces s t.
Proof.
  intros Hc Hcl (Hs & Hb & Hes & Het & _).
  assert (t ∈ K) by by apply (Hcl s t).
  repeat split; try done.
  - by rewrite (consistent_lookup_member K), Hes.
  - by rewrite (consistent_lookup_member K), Het.
Qed.

(** What an elementary collapse preserves and what it changes. *)
Lemma collapse_complex' (K K' : SimplicialComplex) :
  complex K → collapse K K' →
  complex K' ∧ length K' + 2 = length K ∧ K' `sublist_of` K ∧
  euler K' = euler K.
Proof.
  intros HK (s & t & Hcb).
  pose proof (buildCofaceMap_consistent K (complex_closed K HK)) as Hc.
  pose proof (collapse_by_admissible_pair K K' _ s t Hc (complex_closed K HK) Hcb)
    as Hp.
  pose proof (admissible_pair_ne _ _ _ _ Hp) as Hne.
  destruct Hcb as (Hs & Hb & Hes & Het & ->).
  pose proof Hp as (_ & Ht & _).
  pose proof (complex_NoDup K HK) as Hnd.
  split_and!.
  - by apply (collapse_complex K (buildCofaceMap K)).
  - by apply length_remove_two.
  - etrans; apply sublist_remove.
  - rewrite !euler_remove; try done.
    + pose proof (boundary_sign s t Hb). lia.
    + by apply NoDup_remove.
    + apply elem_of_remove. split; [congruence|done].
Qed.

Lemma rtc_collapse_complex (K K' : SimplicialComplex) :
  complex K → rtc collapse K K' →
  complex K' ∧ (∃ n, length K' + 2 * n = length K) ∧ K' `sublist_of` K ∧
  euler K' = euler K.
Proof.
  intros HK Hr. induction Hr as [K|K K1 K2 Hstep Hr IH].
  - split_and!; [done|by exists 0|done|done].
  - destruct (collapse_complex' K K1 HK Hstep) as (HK1 & Hl & Hsub & He).
    destruct (IH HK1) as (HK2 & [n Hn] & Hsub2 & He2).
    split_and!; [done|exists (S n); lia|by etrans|congruence].
Qed.

Lemma irreducible_collapse_free (K : SimplicialComplex) (cofaces : CofaceMap) :
  coface_consistent K cofaces → complex K →
  irreducible K cofaces → collapse_free K.
Proof.
  intros Hc [_ Hcl] Hirr K' (s & t & Hcb).
  pose proof (collapse_by_admissible_pair K K' cofaces s t Hc Hcl Hcb) as Hp.
  destruct (getFreeFace_admissible K cofaces s t Hc Hcl Hp) as (f & Hf & Hb).
  rewrite Hirr in Hf by apply Hp. by injection Hf as <-.
Qed.
(** ** Termination and the result of [spine] *)

Section Termination.

Context {M : Type} `{UnorderedMap M}.

Lemma spine_step_collapse (st st' : State) :
  Inv st → spine_step st st' →
  ∃ s t, um_begin (st_admissible st) = Some (s, t) ∧
         collapse_by s t (st_L st) (st_L st').
Proof.
  intros HI [Hne Hbody].
  destruct (spine_body_Inv st HI Hne)
    as (s & t & st'' & Hb & Hp & Hbody' & HL & _ & _).
  assert (st'' = st') as -> by congruence.
  exists s, t. split; [done|]. rewrite HL.
  apply (admissible_pair_collapse_by _ (st_cofaces st)); [apply HI|done].
Qed.

Lemma rtc_spine_step_collapse (st st' : State) :
  Inv st → rtc spine_step st st' → rtc collapse (st_L st) (st_L st').
Proof.
  intros HI Hr. induction Hr as [st|st st1 st2 Hstep Hr IH]; [done|].
  destruct (spine_step_collapse st st1 HI Hstep) as (s & t & _ & Hcb).
  eapply rtc_l; [by exists s, t|]. apply IH. by eapply spine_step_Inv.
Qed.

Lemma spine_loop_empty (fuel : nat) (st : State) :
  um_empty (st_admissible st) = true → spine_loop fuel st = Returned (st_L st).
Proof. intros He. destruct fuel; simpl; by rewrite He. Qed.

Lemma spine_loop_step (fuel : nat) (st st' : State) :
  spine_step st st' → spine_loop (S fuel) st = spine_loop fuel st'.
Proof. intros [Hne Hbody]. simpl. by rewrite Hne, Hbody. Qed.

Lemma spine_loop_fuel_mono (fuel fuel' : nat) (st : State) (L : SimplicialComplex) :
  spine_loop fuel st = Returned L → fuel ≤ fuel' →
  spine_loop fuel' st = Returned L.
Proof.
  revert fuel' st. induction fuel as [|fuel IH]; intros fuel' st Hrun Hle.
  - simpl in Hrun. destruct (um_empty (st_admissible st)) eqn:He; [|done].
    by rewrite spine_loop_empty.
  - destruct fuel' as [|fuel']; [lia|]. simpl in *.
    destruct (um_empty (st_admissible st)); [done|].
    destruct (spine_body st) as [st'|]; [|done]. apply IH; [done|lia].
Qed.

Lemma spine_body_length (st : State) :
  Inv st → um_empty (st_admissible st) = false →
  ∃ st', spine_step st st' ∧ Inv st' ∧
         length (st_L st') + 2 = length (st_L st).
Proof.
  intros HI He.
  destruct (spine_body_Inv st HI He)
    as (s & t & st' & _ & Hp & Hbody & HL & _ & HI').
  exists st'. split_and!; [done|done|]. rewrite HL.
  apply length_remove_two; [apply HI|apply Hp|apply Hp|].
  by apply (admissible_pair_ne _ _ _ _ Hp).
Qed.

Lemma spine_loop_returns (fuel : nat) (st : State) :
  Inv st → length (st_L st) ≤ 2 * fuel + 1 →
  ∃ st', rtc spine_step st st' ∧ um_empty (st_admissible st') = true ∧
         spine_loop fuel st = Returned (st_L st').
Proof.
  revert st. induction fuel as [|fuel IH]; intros st HI Hlen;
    destruct (um_empty (st_admissible st)) eqn:He;
    try (exists st; split_and!; [done|done|by apply spine_loop_empty]);
    destruct (spine_body_length st HI He) as (st' & Hstep & HI' & Hl).
  - lia.
  - destruct (IH st' HI') as (st'' & Hr & He'' & Hrun); [lia|].
    exists st''. split_and!; [|done|].
    + by eapply rtc_l.
    + by rewrite (spine_loop_step fuel st st').
Qed.

(** [spine] returns on every complex: some state with an empty admissible
    map is reached, and every budget of at least half the size of [K]
    suffices to return its complex. *)
Lemma spine_fuel_returns (K : SimplicialComplex) :
  complex K →
  ∃ st, reachable K st ∧ um_empty (st_admissible st) = true ∧
        ∀ fuel, length K ≤ 2 * fuel + 1 →
                spine_fuel fuel K = Returned (st_L st).
Proof.
  intros HK. destruct (spine_init_Inv K HK) as (st0 & Hinit & HI & HL & _).
  destruct (spine_loop_returns (length K / 2) st0 HI) as (st & Hr & He & Hrun).
  { rewrite HL. pose proof (Nat.div_mod_eq (length K) 2).
    pose proof (Nat.mod_upper_bound (length K) 2 ltac:(lia)). lia. }
  exists st. split_and!; [by exists st0|done|].
  intros fuel Hfuel. unfold spine_fuel. rewrite Hinit.
  apply (spine_loop_fuel_mono (length K / 2)); [done|].
  pose proof (Nat.div_mod_eq (length K) 2). lia.
Qed.

(** The postcondition of [spine]: the returned complex results from the
    input by elementary collapses and admits none. *)
Lemma reachable_collapse (K : SimplicialComplex) (st : State) :
  complex K → reachable K st → rtc collapse K (st_L st).
Proof.
  intros HK (st0 & Hinit & Hr).
  destruct (spine_init_Inv K HK) as (st1 & Hinit' & HI & HL & _).
  assert (st1 = st0) as -> by congruence.
  rewrite <- HL. by apply rtc_spine_step_collapse.
Qed.

Lemma reachable_empty_collapse_free (K : SimplicialComplex) (st : State) :
  complex K → reachable K st → um_empty (st_admissible st) = true →
  collapse_free (st_L st).
Proof.
  intros HK Hreach He. pose proof (reachable_Inv K st HK Hreach) as HI.
  apply (irreducible_collapse_free _ (st_cofaces st)); [apply HI..|].
  apply HI. by apply um_empty_spec.
Qed.

Lemma spine_spec (K : SimplicialComplex) :
  complex K →
  ∃ L, spine (M := M) K = Returned L ∧ rtc collapse K L ∧ collapse_free L
       ∧ (∀ fuel, length K ≤ 2 * fuel + 1 →
                  spine_fuel (M := M) fuel K = Returned L).
Proof.
  intros HK. destruct (spine_fuel_returns K HK) as (st & Hreach & He & Hrun).
  exists (st_L st). split_and!.
  - apply Hrun. lia.
  - by apply reachable_collapse.
  - by apply (reachable_empty_collapse_free K).
  - done.
Qed.

End Termination.

(** ** The two association lists are unordered maps *)

Lemma list_to_map_erase (k : Simplex) (m : list (Simplex * Simplex)) :
  (list_to_map (filter (λ p, p.1 ≠ k) m) : gmap Simplex Simplex)
  = delete k (list_to_map m).
Proof.
  induction m as [|[k' v'] m IH]; [symmetry; apply delete_empty|].
  rewrite filter_cons. simpl. destruct (decide (k' ≠ k)) as [Hne|Heq].
  - simpl. rewrite IH. by rewrite delete_insert_ne.
  - apply dec_stable in Heq. subst k'. by rewrite IH, delete_insert_eq.
Qed.

Lemma list_to_map_nil_iff (m : list (Simplex * Simplex)) :
  (list_to_map m : gmap Simplex Simplex) = ∅ ↔ m = [].
Proof.
  split; [|by intros ->]. destruct m as [|[k v] m]; [done|]. simpl.
  intros Hm. by apply insert_non_empty in Hm.
Qed.

Lemma list_to_map_head (m : list (Simplex * Simplex)) (k v : Simplex) :
  head m = Some (k, v) →
  (list_to_map m : gmap Simplex Simplex) !! k = Some v.
Proof.
  destruct m as [|[k' v'] m]; [done|]. simpl. intros [= -> ->].
  apply lookup_insert_eq.
Qed.

Lemma list_empty_spec (m : list (Simplex * Simplex)) :
  match m with [] => true | _ => false end = true ↔
  (list_to_map m : gmap Simplex Simplex) = ∅.
Proof. rewrite list_to_map_nil_iff. by destruct m. Qed.

Lemma list_begin_nonempty (m : list (Simplex * Simplex)) :
  (list_to_map m : gmap Simplex Simplex) ≠ ∅ → is_Some (head m).
Proof. destruct m as [|p m]; [done|]. by exists p. Qed.

Lemma NewestFirst_content_insert (k v : Simplex) (m : NewestFirst.t) :
  NewestFirst.content (NewestFirst.insert k v m) =
    match NewestFirst.content m !! k with
    | Some _ => NewestFirst.content m
    | None => <[k:=v]> (NewestFirst.content m)
    end.
Proof.
  unfold NewestFirst.content, NewestFirst.insert.
  destruct (decide (k ∈ (NewestFirst.bindings m).*1)) as [Hin|Hnin].
  - destruct (list_to_map (NewestFirst.bindings m) !! k) eqn:Hk; [done|].
    by apply not_elem_of_list_to_map in Hk.
  - apply not_elem_of_list_to_map in Hnin as Hk. by rewrite Hk.
Qed.

Lemma OldestFirst_content_insert (k v : Simplex) (m : OldestFirst.t) :
  OldestFirst.content (OldestFirst.insert k v m) =
    match OldestFirst.content m !! k with
    | Some _ => OldestFirst.content m
    | None => <[k:=v]> (OldestFirst.content m)
    end.
Proof.
  unfold OldestFirst.content, OldestFirst.insert.
  destruct (decide (k ∈ (OldestFirst.bindings m).*1)) as [Hin|Hnin].
  - destruct (list_to_map (OldestFirst.bindings m) !! k) eqn:Hk; [done|].
    by apply not_elem_of_list_to_map in Hk.
  - apply not_elem_of_list_to_map in Hnin as Hk. rewrite Hk. simpl.
    by apply list_to_map_snoc.
Qed.

#[export] Instance NewestFirst_UnorderedMap : UnorderedMap NewestFirst.t := {|
  um_new := NewestFirst.new;
  um_insert := NewestFirst.insert;
  um_erase := NewestFirst.erase;
  um_empty := NewestFirst.empty;
  um_begin := NewestFirst.begin;
  um_content := NewestFirst.content;
  um_content_new := eq_refl;
  um_content_insert := NewestFirst_content_insert;
  um_content_erase k m := list_to_map_erase k (NewestFirst.bindings m);
  um_empty_spec m := list_empty_spec (NewestFirst.bindings m);
  um_begin_member m := list_to_map_head (NewestFirst.bindings m);
  um_begin_nonempty m := list_begin_nonempty (NewestFirst.bindings m)
|}.

#[export] Instance OldestFirst_UnorderedMap : UnorderedMap OldestFirst.t := {|
  um_new := OldestFirst.new;
  um_insert := OldestFirst.insert;
  um_erase := OldestFirst.erase;
  um_empty := OldestFirst.empty;
  um_begin := OldestFirst.begin;
  um_content := OldestFirst.content;
  um_content_new := eq_refl;
  um_content_insert := OldestFirst_content_insert;
  um_content_erase k m := list_to_map_erase k (OldestFirst.bindings m);
  um_empty_spec m := list_empty_spec (OldestFirst.bindings m);
  um_begin_member m := list_to_map_head (OldestFirst.bindings m);
  um_begin_nonempty m := list_begin_nonempty (OldestFirst.bindings m)
|}.

(** ** The reference implementation *)

Section DumbLemmas.

Context {M : Type} `{UnorderedMap M}.

Lemma intersect_subset (f u : Simplex) :
  (∀ v, v ∈ f → v ∈ u) → intersect f u = f.
Proof.
  unfold intersect. induction f as [|v f IH]; intros Hsub; [done|].
  rewrite filter_cons_True by set_solver. f_equal. apply IH. set_solver.
Qed.

(** A free face found by the reference implementation has no coface
    but [it]. *)
Lemma isFace_false (K : SimplicialComplex) (it itFace u : Simplex) :
  dumb.isFace K it itFace = false → u ∈ K → itFace ∈ boundary u → u = it.
Proof.
  unfold dumb.isFace. intros Hf Hu Hb.
  destruct (decide (u = it)) as [|Hne]; [done|]. exfalso.
  assert (existsb
    (λ simplex,
       bool_decide (dimension itFace + 1 = dimension simplex)
       && bool_decide (simplex ≠ it)
       && bool_decide (intersect itFace simplex = itFace)) K = true) as Ht;
    [|congruence].
  apply existsb_exists. exists u. split; [by apply list_elem_of_In|].
  rewrite !andb_true_iff, !bool_decide_eq_true. split_and!; [|done|].
  - apply boundary_length in Hb. unfold dimension. lia.
  - apply intersect_subset. intros v. by apply boundary_subset.
Qed.

Lemma findFreeFace_Some (K : SimplicialComplex) (it : Simplex)
  (faces : list Simplex) (f : Simplex) :
  dumb.findFreeFace K it faces = Some f →
  f ∈ faces ∧ dumb.isFace K it f = false.
Proof.
  induction faces as [|g faces IH]; simpl; [done|].
  destruct (dumb.isFace K it g) eqn:Hg.
  - intros Hf. destruct (IH Hf). split; [set_solver|done].
  - intros [= <-]. split; [set_solver|done].
Qed.

Lemma step1_content (K l : SimplicialComplex) (admissible : M) (s f : Simplex) :
  um_content (foldl (dumb.principalFaces_step1 K) admissible l) !! s = Some f →
  um_content admissible !! s = Some f ∨
  (s ∈ l ∧ dumb.findFreeFace K s (boundary s) = Some f).
Proof.
  revert admissible. induction l as [|u l IH]; intros admissible; cbn [foldl].
  - by left.
  - intros Hs. apply IH in Hs as [Hs|[Hs Hf]]; [|right; set_solver].
    unfold dumb.principalFaces_step1 in Hs.
    destruct (bool_decide (dimension u = 0)); [by left|].
    destruct (dumb.findFreeFace K u (boundary u)) as [g|] eqn:Hg; [|by left].
    rewrite um_content_insert in Hs.
    destruct (um_content admissible !! u) eqn:Hu; [by left|].
    destruct (decide (s = u)) as [->|Hne].
    + rewrite lookup_insert_eq in Hs. right. split; [set_solver|congruence].
    + rewrite lookup_insert_ne in Hs by done. by left.
Qed.

Lemma erase_fold_content (faces : list Simplex) (admissible : M) (s f : Simplex) :
  um_content (foldl (λ admissible itFace, um_erase itFace admissible)
                admissible faces) !! s = Some f →
  um_content admissible !! s = Some f ∧ s ∉ faces.
Proof.
  revert admissible. induction faces as [|g faces IH]; intros admissible;
    cbn [foldl].
  - intros Hs. split; [done|apply not_elem_of_nil].
  - intros Hs. apply IH in Hs as [Hs Hnin]. rewrite um_content_erase in Hs.
    destruct (decide (s = g)) as [->|Hne].
    + by rewrite lookup_delete_eq in Hs.
    + rewrite lookup_delete_ne in Hs by done. split; [done|set_solver].
Qed.

Lemma step2_content (l : SimplicialComplex) (admissible : M) (s f : Simplex) :
  um_content (foldl dumb.principalFaces_step2 admissible l) !! s = Some f →
  um_content admissible !! s = Some f ∧ ∀ u, u ∈ l → s ∉ boundary u.
Proof.
  revert admissible. induction l as [|u l IH]; intros admissible; cbn [foldl].
  - intros Hs. split; [done|]. intros u Hu. by apply elem_of_nil in Hu.
  - intros Hs. apply IH in Hs as [Hs Hl].
    apply erase_fold_content in Hs as [Hs Hu]. split; [done|].
    intros w Hw. apply elem_of_cons in Hw as [->|Hw]; auto.
Qed.

(** Every pair [principalFaces] reports is an elementary collapse. *)
Lemma principalFaces_collapse (K : SimplicialComplex) (s t : Simplex) :
  face_closed K →
  um_content (dumb.principalFaces (M := M) K) !! s = Some t →
  collapse_by s t K
    (remove_without_validation t (remove_without_validation s K)).
Proof.
  intros Hcl Hst. unfold dumb.principalFaces in Hst.
  apply step2_content in Hst as [Hst Hprincipal].
  apply step1_content in Hst as [Hst|[Hs Hf]];
    [by rewrite um_content_new, lookup_empty in Hst|].
  apply findFreeFace_Some in Hf as [Hb Hfree].
  split_and!; [done|done| | |done].
  - apply set_eq. intros u. rewrite elem_of_cofaces_of.
    split; [|set_solver]. intros [Hu Hsu]. by destruct (Hprincipal u Hu).
  - apply set_eq. intros u. rewrite elem_of_cofaces_of, elem_of_singleton.
    split.
    + intros [Hu Htu]. by apply (isFace_false K s t u).
    + by intros ->.
Qed.

Lemma dumb_spine_body (L : SimplicialComplex) :
  complex L → um_empty (dumb.principalFaces (M := M) L) = false →
  ∃ L', dumb.spine_body L (dumb.principalFaces L)
        = Some (L', dumb.principalFaces L') ∧
        collapse L L'.
Proof.
  intros HL Hne. destruct (um_begin_pair _ Hne) as (s & t & Hb & Hst).
  apply principalFaces_collapse in Hst; [|apply HL].
  unfold dumb.spine_body. rewrite Hb. simpl. eexists. split; [done|].
  by exists s, t.
Qed.

Lemma dumb_spine_loop_empty (fuel : nat) (L : SimplicialComplex) (admissible : M) :
  um_empty admissible = true → dumb.spine_loop fuel L admissible = Returned L.
Proof. intros He. destruct fuel; simpl; by rewrite He. Qed.

Lemma dumb_spine_loop_fuel_mono (fuel fuel' : nat) (L R : SimplicialComplex)
  (admissible : M) :
  dumb.spine_loop fuel L admissible = Returned R → fuel ≤ fuel' →
  dumb.spine_loop fuel' L admissible = Returned R.
Proof.
  revert fuel' L admissible.
  induction fuel as [|fuel IH]; intros fuel' L admissible Hrun Hle.
  - simpl in Hrun. destruct (um_empty admissible) eqn:He; [|done].
    by rewrite dumb_spine_loop_empty.
  - destruct fuel' as [|fuel']; [lia|]. simpl in *.
    destruct (um_empty admissible); [done|].
    destruct (dumb.spine_body L admissible) as [[L' a']|]; [|done].
    apply IH; [done|lia].
Qed.

Lemma dumb_spine_loop_returns (fuel : nat) (L : SimplicialComplex) :
  complex L → length L ≤ 2 * fuel + 1 →
  ∃ L', rtc collapse L L' ∧
        um_empty (dumb.principalFaces (M := M) L') = true ∧
        dumb.spine_loop fuel L (dumb.principalFaces (M := M) L) = Returned L'.
Proof.
  revert L. induction fuel as [|fuel IH]; intros L HL Hlen;
    destruct (um_empty (dumb.principalFaces (M := M) L)) eqn:He;
    try (exists L; split_and!; [done|done|by apply dumb_spine_loop_empty]);
    destruct (dumb_spine_body L HL He) as (L' & Hbody & Hstep);
    destruct (collapse_complex' L L' HL Hstep) as (HL' & Hl & _).
  - lia.
  - destruct (IH L' HL') as (L'' & Hr & He'' & Hrun); [lia|].
    exists L''. split_and!; [by eapply rtc_l|done|].
    simpl. by rewrite He, Hbody.
Qed.

Lemma dumb_spine_spec (K : SimplicialComplex) :
  complex K →
  ∃ L, dumb.spine (M := M) K = Returned L ∧ rtc collapse K L ∧
       um_empty (dumb.principalFaces (M := M) L) = true ∧
       (∀ fuel, length K ≤ 2 * fuel + 1 →
                dumb.spine_fuel (M := M) fuel K = Returned L).
Proof.
  intros HK.
  destruct (dumb_spine_loop_returns (length K / 2) K HK) as (L & Hr & He & Hrun).
  { pose proof (Nat.div_mod_eq (length K) 2).
    pose proof (Nat.mod_upper_bound (length K) 2 ltac:(lia)). lia. }
  assert (Hall : ∀ fuel, length K ≤ 2 * fuel + 1 →
                         dumb.spine_fuel (M := M) fuel K = Returned L).
  { intros fuel Hfuel. unfold dumb.spine_fuel.
    apply (dumb_spine_loop_fuel_mono (length K / 2)); [done|].
    pose proof (Nat.div_mod_eq (length K) 2). lia. }
  exists L. split_and!; [apply Hall; lia|done|done|done].
Qed.

(** On normalised simplices the test of the reference implementation finds
    codimension-1 faces only. *)
Lemma isFace_true (K : SimplicialComplex) (it itFace : Simplex) :
  normalised K → StronglySorted lt itFace → 1 ≤ length itFace →
  dumb.isFace K it itFace = true →
  ∃ u, u ∈ K ∧ u ≠ it ∧ itFace ∈ boundary u.
Proof.
  intros Hn Hsf Hlen Hface. unfold dumb.isFace in Hface.
  apply existsb_exists in Hface as (u & Hu & Htest).
  apply list_elem_of_In in Hu.
  rewrite !andb_true_iff, !bool_decide_eq_true in Htest.
  destruct Htest as [[Hdim Hne] Hint]. exists u. split_and!; [done|done|].
  unfold dimension in Hdim.
  assert (Hlu : length u = S (length itFace)) by lia.
  assert (itFace ∈ drop_each u) as Hd.
  { apply sorted_face; [done| |done|].
    - by apply (proj1 (Forall_forall _ _) Hn).
    - intros v. by apply intersect_eq_subset. }
  destruct u as [|a [|b u]]; simpl in Hlu; [lia|lia|done].
Qed.

Lemma boundary_sorted (s f : Simplex) :
  StronglySorted lt s → f ∈ boundary s → StronglySorted lt f.
Proof.
  intros Hs Hf.
  assert (Hd : ∀ s f, StronglySorted lt s → f ∈ drop_each s →
                      StronglySorted lt f ∧ ∀ v, v ∈ f → v ∈ s).
  { clear. induction s as [|a s IH]; intros f Hs Hf; simpl in Hf.
    - by apply elem_of_nil in Hf.
    - apply StronglySorted_inv in Hs as [Hs Ha].
      apply elem_of_cons in Hf as [->|Hf]; [split; [done|set_solver]|].
      apply list_elem_of_fmap in Hf as (g & -> & Hg).
      destruct (IH g Hs Hg) as [Hsg Hsub]. split; [|set_solver].
      constructor; [done|]. apply Forall_forall. intros v Hv.
      eapply Forall_forall in Ha; [done|]. by apply Hsub. }
  destruct s as [|a [|b s]]; try by apply elem_of_nil in Hf.
  by apply (Hd (a :: b :: s)).
Qed.

Lemma findFreeFace_is_Some (K : SimplicialComplex) (it : Simplex)
  (faces : list Simplex) (t : Simplex) :
  t ∈ faces → dumb.isFace K it t = false →
  is_Some (dumb.findFreeFace K it faces).
Proof.
  induction faces as [|g faces IH]; intros Ht Hfree.
  - by apply elem_of_nil in Ht.
  - simpl. destruct (dumb.isFace K it g) eqn:Hg; [|by eexists].
    apply IH; [|done]. apply elem_of_cons in Ht as [->|]; [congruence|done].
Qed.

Lemma step1_keeps (K l : SimplicialComplex) (admissible : M) (s : Simplex) :
  is_Some (um_content admissible !! s) →
  is_Some (um_content (foldl (dumb.principalFaces_step1 K) admissible l) !! s).
Proof.
  revert admissible. induction l as [|u l IH]; intros admissible Hs; [done|].
  cbn [foldl]. apply IH. unfold dumb.principalFaces_step1.
  destruct (bool_decide (dimension u = 0)); [done|].
  destruct (dumb.findFreeFace K u (boundary u)); [|done].
  by apply insert_content_mono.
Qed.

Lemma step1_inserts (K l : SimplicialComplex) (admissible : M) (s : Simplex) :
  s ∈ l → dimension s ≠ 0 → is_Some (dumb.findFreeFace K s (boundary s)) →
  is_Some (um_content (foldl (dumb.principalFaces_step1 K) admissible l) !! s).
Proof.
  revert admissible. induction l as [|u l IH]; intros admissible Hs Hdim Hf.
  - by apply elem_of_nil in Hs.
  - cbn [foldl]. destruct (decide (s = u)) as [<-|Hne].
    + apply step1_keeps. unfold dumb.principalFaces_step1.
      rewrite bool_decide_eq_false_2 by done.
      destruct Hf as [f ->]. apply insert_content_key.
    + apply IH; [|done|done]. apply elem_of_cons in Hs as [|]; done.
Qed.

Lemma erase_fold_keeps (faces : list Simplex) (admissible : M) (s : Simplex) :
  s ∉ faces → is_Some (um_content admissible !! s) →
  is_Some (um_content (foldl (λ admissible itFace, um_erase itFace admissible)
                         admissible faces) !! s).
Proof.
  revert admissible. induction faces as [|g faces IH]; intros admissible Hnin Hs;
    [done|].
  cbn [foldl]. apply IH; [set_solver|].
  rewrite um_content_erase, lookup_delete_ne; [done|set_solver].
Qed.

Lemma step2_keeps (l : SimplicialComplex) (admissible : M) (s : Simplex) :
  (∀ u, u ∈ l → s ∉ boundary u) → is_Some (um_content admissible !! s) →
  is_Some (um_content (foldl dumb.principalFaces_step2 admissible l) !! s).
Proof.
  revert admissible. induction l as [|u l IH]; intros admissible Hl Hs; [done|].
  cbn [foldl]. apply IH; [intros; apply Hl; set_solver|].
  apply erase_fold_keeps; [apply Hl; set_solver|done].
Qed.

(** On a normalised complex the reference implementation reports every
    simplex that can be collapsed: when it reports nothing, no elementary
    collapse is left. *)
Lemma principalFaces_empty_collapse_free (K : SimplicialComplex) :
  normalised K → face_closed K →
  um_empty (dumb.principalFaces (M := M) K) = true → collapse_free K.
Proof.
  intros Hn Hcl He K' (s & t & Hs & Hb & Hes & Het & _).
  apply um_empty_spec in He.
  assert (is_Some (um_content (dumb.principalFaces (M := M) K) !! s)) as [x Hx];
    [|by rewrite He, lookup_empty in Hx].
  unfold dumb.principalFaces. apply step2_keeps.
  { intros u Hu Hsu. assert (u ∈ cofaces_of K s) by by apply elem_of_cofaces_of.
    set_solver. }
  pose proof (boundary_length s t Hb) as [Hlen Hpos].
  apply step1_inserts; [done|unfold dimension; lia|].
  apply (findFreeFace_is_Some K s (boundary s) t Hb).
  destruct (dumb.isFace K s t) eqn:Hface; [|done]. exfalso.
  destruct (isFace_true K s t Hn) as (u & Hu & Hne & Htu); [|done|done|].
  - apply (boundary_sorted s); [|done]. by apply (proj1 (Forall_forall _ _) Hn).
  - assert (u ∈ cofaces_of K t) as Hin by by apply elem_of_cofaces_of.
    rewrite Het in Hin. set_solver.
Qed.

Lemma collapse_normalised (K K' : SimplicialComplex) :
  normalised K → collapse K K' → normalised K'.
Proof.
  intros Hn (s & t & _ & _ & _ & _ & ->). unfold normalised in *.
  rewrite Forall_forall in *. intros u Hu. rewrite !elem_of_remove in Hu.
  apply Hn, Hu.
Qed.

Lemma rtc_collapse_normalised (K K' : SimplicialComplex) :
  normalised K → rtc collapse K K' → normalised K'.
Proof. intros Hn Hr. induction Hr; eauto using collapse_normalised. Qed.

(** The postcondition of [dumb::spine] on normalised complexes: the returned
    complex results from the input by elementary collapses and admits
    none. *)
Lemma dumb_spine_spec_normalised (K : SimplicialComplex) :
  complex K → normalised K →
  ∃ L, dumb.spine (M := M) K = Returned L ∧ rtc collapse K L ∧
       collapse_free L.
Proof.
  intros HK Hn. destruct (dumb_spine_spec K HK) as (L & Hrun & Hr & He & _).
  exists L. split_and!; [done|done|].
  destruct (rtc_collapse_complex K L HK Hr) as (HL & _).
  apply principalFaces_empty_collapse_free; [|apply HL|done].
  by apply (rtc_collapse_normalised K).
Qed.

End DumbLemmas.

(** ** Leaving the loop *)

Section Exit.

Context {M : Type} `{UnorderedMap M}.

(** The loop is left exactly when a full rebuild finds nothing. *)
Lemma exit_iff_rebuild_empty (st : State) :
  Inv st →
  um_empty (st_admissible st) = true ↔
  ∃ admissible : M,
    getPrincipalFaces (st_cofaces st) (st_L st) = Some admissible ∧
    um_empty admissible = true.
Proof.
  intros HI. pose proof (complex_closed _ (inv_complex _ HI)) as Hcl. split.
  - intros He. exists um_new. split.
    + apply getPrincipalFaces_irreducible. apply HI. by apply um_empty_spec.
    + apply um_empty_spec, um_content_new.
  - intros (adm & Hadm & He).
    destruct (um_empty (st_admissible st)) eqn:Hst; [done|]. exfalso.
    destruct (um_begin_pair _ Hst) as (s & t & _ & Hst').
    pose proof (inv_pairs _ HI s t Hst') as Hp.
    destruct (getFreeFace_admissible _ _ s t (inv_cofaces _ HI) Hcl Hp)
      as (f & Hf & Hb).
    destruct (getPrincipalFaces_probed _ _ (inv_cofaces _ HI) Hcl)
      as (adm' & Hadm' & Hpr).
    assert (adm' = adm) as -> by congruence.
    destruct (probed_found _ _ _ _ _ Hpr s f (proj1 Hp) Hf Hb) as [x Hx].
    apply um_empty_spec in He. by rewrite He, lookup_empty in Hx.
Qed.

(** A complex without elementary collapse is returned as it is. *)
Lemma collapse_free_irreducible (K : SimplicialComplex) (cofaces : CofaceMap) :
  coface_consistent K cofaces → face_closed K → collapse_free K →
  irreducible K cofaces.
Proof.
  intros Hc Hcl Hfree s Hs.
  destruct (getFreeFace_total K cofaces s Hc Hcl Hs) as [f Hf].
  destruct (simplex_bool f) eqn:Hb; [|by destruct f].
  pose proof (getFreeFace_pair K cofaces s f Hc Hf Hb) as Hp.
  destruct (Hfree _ (ex_intro _ s (ex_intro _ f
              (admissible_pair_collapse_by K cofaces s f Hc Hp)))).
Qed.

Lemma spine_fuel_irreducible (fuel : nat) (K : SimplicialComplex) :
  irreducible K (buildCofaceMap K) → spine_fuel (M := M) fuel K = Returned K.
Proof.
  intros Hirr. unfold spine_fuel, spine_init.
  rewrite (getPrincipalFaces_irreducible K _ Hirr). simpl.
  apply spine_loop_empty. simpl. apply um_empty_spec, um_content_new.
Qed.

End Exit.

(** ** Enumerating subcomplexes *)

Lemma elem_of_sublists {A : Type} (l k : list A) :
  l `sublist_of` k → l ∈ sublists k.
Proof.
  induction 1 as [|x l k Hs IH|x l k Hs IH]; simpl.
  - set_solver.
  - apply elem_of_app. left. apply list_elem_of_fmap. by exists l.
  - apply elem_of_app. by right.
Qed.

Lemma face_closedb_true (K : SimplicialComplex) :
  face_closedb K = true ↔ face_closed K.
Proof.
  unfold face_closedb, face_closed. rewrite forallb_forall. split.
  - intros Hall u f Hu Hf. apply list_elem_of_In in Hu. specialize (Hall u Hu).
    rewrite forallb_forall in Hall. apply list_elem_of_In in Hf.
    specialize (Hall f Hf). by apply bool_decide_eq_true in Hall.
  - intros Hcl u Hu. apply forallb_forall. intros f Hf.
    apply bool_decide_eq_true. apply (Hcl u f); by apply list_elem_of_In.
Qed.

Lemma collapse_freeb_true (K : SimplicialComplex) :
  collapse_free K → collapse_freeb K = true.
Proof.
  intros Hfree. unfold collapse_freeb. apply forallb_forall. intros s Hs.
  apply forallb_forall. intros t Ht.
  apply list_elem_of_In in Hs, Ht.
  apply negb_true_iff, andb_false_iff.
  destruct (bool_decide_reflect (cofaces_of K s = ∅)) as [Hes|]; [|by left].
  destruct (bool_decide_reflect (cofaces_of K t = {[s]})) as [Het|]; [|by right].
  destruct (Hfree (remove_without_validation t (remove_without_validation s K))).
  by exists s, t.
Qed.

(** A checkable form of [complex]. *)
Lemma complex_check (K : SimplicialComplex) :
  bool_decide (NoDup K) && face_closedb K = true → complex K.
Proof.
  rewrite !andb_true_iff, !bool_decide_eq_true, face_closedb_true.
  intros [? ?]. by split.
Qed.
(** ** The concrete complexes are complexes *)

Lemma full_triangle_complex : complex full_triangle.
Proof. apply complex_check. by vm_compute. Qed.

Lemma hollow_triangle_complex : complex hollow_triangle.
Proof. apply complex_check. by vm_compute. Qed.

Lemma two_triangles_and_cycle_complex : complex two_triangles_and_cycle.
Proof. apply complex_check. by vm_compute. Qed.

(** Among the sub-collections of the full triangle, the face-closed ones
    with the Euler characteristic of the triangle and without elementary
    collapse are the single vertices. *)
Lemma full_triangle_subcomplexes :
  forallb
    (λ L, implb (face_closedb L && bool_decide (euler L = euler full_triangle)
                 && collapse_freeb L)
                (single_vertexb L))
    (sublists full_triangle) = true.
Proof. by vm_compute. Qed.

Lemma firstFreeFace_spec (cofaces : CofaceMap) (s : Simplex)
  (faces : list Simplex) :
  (∀ f, f ∈ faces → is_Some (cofaces !! f)) →
  firstFreeFace cofaces s faces =
    Some (default [] (head (filter (λ f, cofaces !! f = Some {[s]}) faces))).
Proof.
  induction faces as [|g faces IH]; intros Hall; [done|].
  simpl. unfold cofaces_at. destruct (Hall g) as [C HC]; [set_solver|].
  rewrite HC. simpl. rewrite filter_cons.
  destruct (bool_decide (size C = 1) && bool_decide (s ∈ C)) eqn:Ht.
  - apply free_face_test in Ht. subst C. by rewrite decide_True.
  - rewrite decide_False.
    + apply IH. set_solver.
    + intros Heq. rewrite HC in Heq. injection Heq as ->.
      assert (bool_decide (size ({[s]} : gset Simplex) = 1)
              && bool_decide (s ∈ ({[s]} : gset Simplex)) = true)
        by by apply free_face_test.
      congruence.
Qed.
(** ** Passes of the loop, counted *)

Section Passes.

Context {M : Type} `{UnorderedMap M}.

Lemma spine_loop_passes (k : nat) (st : State) :
  length (st_L st) ≤ k → Inv st →
  ∃ n st',
    nsteps spine_step n st st' ∧ um_empty (st_admissible st') = true ∧
    length (st_L st') + 2 * n = length (st_L st) ∧
    ∀ fuel, spine_loop fuel st =
              if decide (n ≤ fuel) then Returned (st_L st') else Unfinished.
Proof.
  revert st. induction k as [|k IH]; intros st Hk HI;
    destruct (um_empty (st_admissible st)) eqn:He.
  1,3: exists 0, st; split_and!; [constructor|done|lia|];
       intros fuel; rewrite decide_True by lia; by apply spine_loop_empty.
  - destruct (spine_body_length st HI He) as (st' & _ & _ & Hl). lia.
  - destruct (spine_body_length st HI He) as (st' & Hstep & HI' & Hl).
    destruct (IH st') as (n & st'' & Hn & He'' & Hlen & Hfuel); [lia|done|].
    exists (S n), st''. split_and!; [by econstructor|done|lia|].
    intros [|fuel].
    + rewrite decide_False by lia. simpl. by rewrite He.
    + rewrite (spine_loop_step fuel st st' Hstep), Hfuel.
      destruct (decide (n ≤ fuel)).
      * by rewrite decide_True by lia.
      * by rewrite decide_False by lia.
Qed.

Lemma selections_empty (fuel : nat) (st : State) :
  um_empty (st_admissible st) = true → selections fuel st = [].
Proof. intros He. destruct fuel; simpl; by rewrite He. Qed.

Lemma selections_step (fuel : nat) (st : State) (s t : Simplex) :
  um_empty (st_admissible st) = false →
  um_begin (st_admissible st) = Some (s, t) →
  selections (S fuel) st =
    s :: match spine_body st with
         | None => []
         | Some st' => selections fuel st'
         end.
Proof. intros He Hb. simpl. by rewrite He, Hb. Qed.

Lemma spine_loop_unfold (fuel : nat) (st : State) :
  um_empty (st_admissible st) = false →
  spine_loop (S fuel) st =
    match spine_body st with
    | None => Thrown
    | Some st' => spine_loop fuel st'
    end.
Proof. intros He. simpl. by rewrite He. Qed.

Lemma selections_removed (fuel : nat) (st : State) (L : SimplicialComplex) :
  Inv st → spine_loop fuel st = Returned L →
  length L + 2 * length (selections fuel st) = length (st_L st) ∧
  (∀ x, x ∈ L → x ∈ st_L st) ∧
  ∀ s, s ∈ selections fuel st → s ∈ st_L st ∧ s ∉ L.
Proof.
  revert st. induction fuel as [|fuel IH]; intros st HI Hrun;
    destruct (um_empty (st_admissible st)) eqn:He.
  1,3: rewrite (spine_loop_empty _ st He) in Hrun; injection Hrun as <-;
       rewrite (selections_empty _ st He);
       split_and!; [simpl; lia|done|by intros s ?%elem_of_nil].
  - simpl in Hrun. by rewrite He in Hrun.
  - destruct (spine_body_Inv st HI He)
      as (s & t & st' & Hb & Hp & Hbody & HL & _ & HI').
    assert (Hstep : spine_step st st') by done.
    rewrite (spine_loop_step fuel st st' Hstep) in Hrun.
    destruct (IH st' HI' Hrun) as (Hlen & Hsub & Hsel).
    rewrite (selections_step fuel st s t He Hb), Hbody.
    assert (Hl : length (st_L st') + 2 = length (st_L st)).
    { rewrite HL. apply length_remove_two; [apply HI|apply Hp|apply Hp|].
      by apply (admissible_pair_ne _ _ _ _ Hp). }
    assert (Hin : ∀ x, x ∈ st_L st' → x ≠ s ∧ x ∈ st_L st).
    { intros x. rewrite HL, !elem_of_remove. tauto. }
    split_and!.
    + simpl. lia.
    + intros x Hx. by apply Hin, Hsub.
    + intros s' [->|Hs']%elem_of_cons.
      * split; [apply Hp|]. intros Hs. by destruct (Hin s (Hsub s Hs)).
      * destruct (Hsel s' Hs') as [Hs1 Hs2]. split; [by apply Hin|done].
Qed.

End Passes.

(** ** Two runs with two unordered maps *)

Lemma for_each_related {A S1 S2 : Type} (R : S1 → S2 → Prop)
  (f1 : S1 → A → option S1) (f2 : S2 → A → option S2) (l : list A) :
  (∀ a1 a2 x, R a1 a2 → option_Forall2 R (f1 a1 x) (f2 a2 x)) →
  ∀ a1 a2, R a1 a2 → option_Forall2 R (for_each f1 l a1) (for_each f2 l a2).
Proof.
  intros Hf. induction l as [|x l IH]; intros a1 a2 HR; simpl.
  - by constructor.
  - destruct (Hf a1 a2 x HR) as [b1 b2 Hb|]; simpl; [by apply IH|constructor].
Qed.

Section TwoMapsLemmas.

Context {M1 : Type} `{UnorderedMap M1} {M2 : Type} `{UnorderedMap M2}.

Lemma same_content_insert (k v : Simplex) (a1 : M1) (a2 : M2) :
  same_content a1 a2 → same_content (um_insert k v a1) (um_insert k v a2).
Proof.
  unfold same_content. intros Ha. rewrite !um_content_insert. by rewrite Ha.
Qed.

Lemma same_content_erase (k : Simplex) (a1 : M1) (a2 : M2) :
  same_content a1 a2 → same_content (um_erase k a1) (um_erase k a2).
Proof.
  unfold same_content. intros Ha. rewrite !um_content_erase. by rewrite Ha.
Qed.

Lemma same_content_empty (a1 : M1) (a2 : M2) :
  same_content a1 a2 → um_empty a1 = um_empty a2.
Proof.
  unfold same_content. intros Ha.
  destruct (um_empty a1) eqn:He1, (um_empty a2) eqn:He2; try done.
  - apply um_empty_spec in He1. rewrite Ha in He1.
    apply um_empty_spec in He1. congruence.
  - apply um_empty_spec in He2. rewrite <- Ha in He2.
    apply um_empty_spec in He2. congruence.
Qed.

Lemma same_content_probe (cofaces : CofaceMap) (a1 : M1) (a2 : M2)
  (s : Simplex) :
  same_content a1 a2 →
  option_Forall2 same_content (probe cofaces a1 s) (probe cofaces a2 s).
Proof.
  intros Ha. unfold probe.
  destruct (getFreeFace cofaces s) as [f|]; simpl; constructor.
  destruct (simplex_bool f); [by apply same_content_insert|done].
Qed.

Lemma same_content_probe_except (t : Simplex) (cofaces : CofaceMap)
  (a1 : M1) (a2 : M2) (s : Simplex) :
  same_content a1 a2 →
  option_Forall2 same_content (probe_except t cofaces a1 s)
                              (probe_except t cofaces a2 s).
Proof.
  intros Ha. unfold probe_except.
  destruct (decide (t ≠ s)); [by apply same_content_probe|by constructor].
Qed.

Lemma same_content_getPrincipalFaces (cofaces : CofaceMap)
  (K : SimplicialComplex) :
  option_Forall2 same_content (getPrincipalFaces (M := M1) cofaces K)
                              (getPrincipalFaces (M := M2) cofaces K).
Proof.
  unfold getPrincipalFaces. apply for_each_related.
  - intros a1 a2 x. apply same_content_probe.
  - unfold same_content. by rewrite !um_content_new.
Qed.

Lemma same_content_reprobe (s t : Simplex) (cofaces : CofaceMap)
  (a1 : M1) (a2 : M2) :
  same_content a1 a2 →
  option_Forall2 same_content (reprobe s t cofaces a1) (reprobe s t cofaces a2).
Proof.
  intros Ha. unfold reprobe.
  destruct (for_each_related same_content (probe_except t cofaces)
              (probe_except t cofaces) (boundary s)
              (same_content_probe_except t cofaces) a1 a2 Ha)
    as [b1 b2 Hb|]; simpl; [|constructor].
  apply for_each_related; [|done]. intros ? ? x. apply same_content_probe.
Qed.

Lemma same_state_init (K : SimplicialComplex) :
  option_Forall2 same_state (spine_init (M := M1) K) (spine_init (M := M2) K).
Proof.
  unfold spine_init.
  destruct (same_content_getPrincipalFaces (buildCofaceMap K) K)
    as [a1 a2 Ha|]; simpl; by constructor.
Qed.

(** When the two maps designate the same key, the two bodies do the same:
    the value of the key is the same in both, since the maps hold the same
    pairs. *)
Lemma same_state_body (st1 : State (M := M1)) (st2 : State (M := M2))
  (s t1 t2 : Simplex) :
  same_state st1 st2 →
  um_begin (st_admissible st1) = Some (s, t1) →
  um_begin (st_admissible st2) = Some (s, t2) →
  option_Forall2 same_state (spine_body st1) (spine_body st2).
Proof.
  intros (HL & Hc & Ha) Hb1 Hb2.
  assert (t2 = t1) as ->.
  { apply um_begin_member in Hb1, Hb2. rewrite Ha in Hb1. congruence. }
  unfold spine_body. rewrite Hb1, Hb2, HL, Hc. simpl.
  destruct (collapseMutation s t1 (st_cofaces st2)) as [cofaces|]; simpl;
    [|constructor].
  destruct (same_content_reprobe s t1 cofaces
              (um_erase s (st_admissible st1)) (um_erase s (st_admissible st2))
              (same_content_erase s _ _ Ha)) as [a1 a2 Ha'|]; simpl;
    [|constructor].
  rewrite (same_content_empty a1 a2 Ha').
  destruct (um_empty a2); simpl; [|by constructor].
  destruct (same_content_getPrincipalFaces cofaces
              (remove_without_validation t1
                 (remove_without_validation s (st_L st2))))
    as [b1 b2 Hb|]; simpl; by constructor.
Qed.

Lemma same_state_loop (fuel : nat) (st1 : State (M := M1))
  (st2 : State (M := M2)) :
  same_state st1 st2 →
  selections fuel st1 = selections fuel st2 →
  spine_loop fuel st1 = spine_loop fuel st2.
Proof.
  revert st1 st2. induction fuel as [|fuel IH]; intros st1 st2 Hst Hsel;
    pose proof Hst as (HL & _ & Ha);
    pose proof (same_content_empty _ _ Ha) as He;
    destruct (um_empty (st_admissible st1)) eqn:He1; symmetry in He.
  1,3: rewrite !spine_loop_empty by done; by rewrite HL.
  - simpl. by rewrite He1, He.
  - destruct (um_begin_pair _ He1) as (s1 & t1 & Hb1 & _).
    destruct (um_begin_pair _ He) as (s2 & t2 & Hb2 & _).
    rewrite (selections_step fuel st1 s1 t1 He1 Hb1) in Hsel.
    rewrite (selections_step fuel st2 s2 t2 He Hb2) in Hsel.
    injection Hsel as -> Hsel.
    rewrite !spine_loop_unfold by done.
    destruct (same_state_body st1 st2 s2 t1 t2 Hst Hb1 Hb2)
      as [st1' st2' Hst'|]; [by apply IH|done].
Qed.

Lemma same_selections_same_outcome (K : SimplicialComplex) :
  spine_selections (M := M1) K = spine_selections (M := M2) K →
  spine (M := M1) K = spine (M := M2) K.
Proof.
  unfold spine_selections, spine, spine_fuel.
  destruct (same_state_init K) as [st1 st2 Hst|]; [|done].
  by apply same_state_loop.
Qed.

End TwoMapsLemmas.

Lemma spine_selections_removed {M : Type} `{UnorderedMap M}
  (K L : SimplicialComplex) :
  complex K → spine (M := M) K = Returned L →
  length L + 2 * length (spine_selections (M := M) K) = length K ∧
  ∀ s, s ∈ spine_selections (M := M) K → s ∈ K ∧ s ∉ L.
Proof.
  intros HK Hrun. destruct (spine_init_Inv K HK) as (st & Hinit & HI & HL & _).
  unfold spine, spine_fuel in Hrun. unfold spine_selections.
  rewrite Hinit in *.
  destruct (selections_removed (length K) st L HI Hrun) as (Hlen & _ & Hsel).
  rewrite HL in Hlen, Hsel. done.
Qed.

(** * The properties of the specification *)

(** ** The two engines on concrete complexes *)

Example spine_full_triangle_NewestFirst :
  spine (M := NewestFirst.t) full_triangle = Returned [[0]].
Proof. by vm_compute. Qed.

Example spine_full_triangle_OldestFirst :
  spine (M := OldestFirst.t) full_triangle = Returned [[0]].
Proof. by vm_compute. Qed.

Example dumb_spine_full_triangle :
  dumb.spine (M := NewestFirst.t) full_triangle = Returned [[0]].
Proof. by vm_compute. Qed.

Example full_triangle_entry_init :
  spine_init full_triangle = Some full_triangle_entry.
Proof. by vm_compute. Qed.

Lemma full_triangle_entry_reachable :
  reachable full_triangle full_triangle_entry.
Proof.
  exists full_triangle_entry. split; [apply full_triangle_entry_init|apply rtc_refl].
Qed.

(** ** C1: agreement of the two engines *)

(** C1 (as stated) fails.  Both engines run with the same unordered map,
    one in which [begin()] is the newest element.  On two triangles glued
    along an edge, with a cycle through another edge of the first, the
    incremental engine leaves 8 simplices and the reference implementation
    6: once the second triangle is gone, the incremental engine still holds
    the pair it recorded for the first triangle and removes the edge on the
    cycle, while the reference implementation computes the first free face
    afresh and removes the edge that was shared.  The same happens with the
    map in which [begin()] is the oldest element, when the two triangles
    are enumerated the other way round. *)
Lemma spine_sizes_differ :
  complex two_triangles_and_cycle ∧
  spine (M := NewestFirst.t) two_triangles_and_cycle
    = Returned [[0; 1]; [1; 2]; [0; 4]; [2; 4]; [0]; [1]; [2]; [4]] ∧
  dumb.spine (M := NewestFirst.t) two_triangles_and_cycle
    = Returned [[0; 2]; [0; 4]; [2; 4]; [0]; [2]; [4]] ∧
  spine (M := OldestFirst.t) two_triangles_and_cycle_swapped
    = Returned [[0; 1]; [1; 2]; [0; 4]; [2; 4]; [0]; [1]; [2]; [4]] ∧
  dumb.spine (M := OldestFirst.t) two_triangles_and_cycle_swapped
    = Returned [[0; 2]; [0; 4]; [2; 4]; [0]; [2]; [4]] ∧
  ¬ (∀ K L1 L2, complex K →
       spine (M := NewestFirst.t) K = Returned L1 →
       dumb.spine (M := NewestFirst.t) K = Returned L2 →
       length L1 = length L2).
Proof.
  split_and!; [apply two_triangles_and_cycle_complex|by vm_compute..|].
  intros Hagree.
  specialize (Hagree two_triangles_and_cycle
                [[0; 1]; [1; 2]; [0; 4]; [2; 4]; [0]; [1]; [2]; [4]]
                [[0; 2]; [0; 4]; [2; 4]; [0]; [2]; [4]]
                two_triangles_and_cycle_complex).
  discriminate Hagree; by vm_compute.
Qed.

(** C1 (as amended). On every face-closed complex both reducers return a
    spine of the input: a complex that results from it by elementary
    collapses and admits no further one.  The two spines have the same
    Euler characteristic, and sizes that differ from the size of the input
    by even numbers.  The sizes themselves need not agree. *)
Theorem spines_collapse_from_input {M1 : Type} `{UnorderedMap M1}
  {M2 : Type} `{UnorderedMap M2} (K : SimplicialComplex) :
  complex K → normalised K →
  ∃ L1 L2,
    spine (M := M1) K = Returned L1 ∧
    dumb.spine (M := M2) K = Returned L2 ∧
    rtc collapse K L1 ∧ rtc collapse K L2 ∧
    collapse_free L1 ∧ collapse_free L2 ∧
    euler L1 = euler L2 ∧
    ∃ n1 n2, length L1 + 2 * n1 = length K ∧ length L2 + 2 * n2 = length K.
Proof.
  intros HK Hn.
  destruct (spine_spec (M := M1) K HK) as (L1 & Hrun1 & Hr1 & Hfree1 & _).
  destruct (dumb_spine_spec_normalised (M := M2) K HK Hn)
    as (L2 & Hrun2 & Hr2 & Hfree2).
  destruct (rtc_collapse_complex K L1 HK Hr1) as (_ & [n1 Hn1] & _ & He1).
  destruct (rtc_collapse_complex K L2 HK Hr2) as (_ & [n2 Hn2] & _ & He2).
  exists L1, L2. split_and!; try done; [congruence|by exists n1, n2].
Qed.

Lemma spines_collapse_from_input_witness :
  complex two_triangles_and_cycle ∧
  normalised two_triangles_and_cycle ∧
  ∃ L1 L2,
    spine (M := NewestFirst.t) two_triangles_and_cycle = Returned L1 ∧
    dumb.spine (M := NewestFirst.t) two_triangles_and_cycle = Returned L2 ∧
    rtc collapse two_triangles_and_cycle L1 ∧
    rtc collapse two_triangles_and_cycle L2 ∧
    collapse_free L1 ∧ collapse_free L2 ∧
    euler L1 = euler L2 ∧
    ∃ n1 n2, length L1 + 2 * n1 = length two_triangles_and_cycle ∧
             length L2 + 2 * n2 = length two_triangles_and_cycle.
Proof.
  split; [apply complex_check; vm_compute; reflexivity|].
  split; [apply (bool_decide_unpack _); vm_compute; exact I|].
  apply (spines_collapse_from_input two_triangles_and_cycle).
  - apply complex_check. vm_compute. reflexivity.
  - apply (bool_decide_unpack _). vm_compute. exact I.
Defined.

(** ** C2: the result is a complex no larger than the input *)

(** C2. For every face-closed complex [K], [spine] returns a complex that
    is face-closed and has at most as many simplices as [K]. *)
Theorem spine_face_closed_no_larger {M : Type} `{UnorderedMap M}
  (K : SimplicialComplex) :
  complex K →
  ∃ L, spine (M := M) K = Returned L ∧ face_closed L ∧ length L ≤ length K.
Proof.
  intros HK. destruct (spine_spec K HK) as (L & Hrun & Hr & _).
  destruct (rtc_collapse_complex K L HK Hr) as (HL & [n Hn] & _).
  exists L. split_and!; [done|apply HL|lia].
Qed.

Lemma spine_face_closed_no_larger_witness :
  complex full_triangle ∧
  ∃ L, spine (M := NewestFirst.t) full_triangle = Returned L ∧
       face_closed L ∧ length L ≤ length full_triangle.
Proof.
  split.
  - apply complex_check. vm_compute. reflexivity.
  - apply (spine_face_closed_no_larger full_triangle).
    apply complex_check. vm_compute. reflexivity.
Defined.

(** ** C3: the coface map stays consistent *)

(** C3. After [buildCofaceMap], and after the collapse mutation of every
    pass of the loop, the coface map holds an entry exactly for the
    simplices of the working complex, and the entry of a simplex is the set
    of the members that have it as a codimension-1 face. *)
Theorem coface_map_consistent {M : Type} `{UnorderedMap M}
  (K : SimplicialComplex) :
  complex K →
  coface_consistent K (buildCofaceMap K) ∧
  ∀ st : State (M := M), reachable K st →
    coface_consistent (st_L st) (st_cofaces st) ∧
    ∀ s t, um_begin (st_admissible st) = Some (s, t) →
      ∃ cofaces',
        collapseMutation s t (st_cofaces st) = Some cofaces' ∧
        coface_consistent
          (remove_without_validation t (remove_without_validation s (st_L st)))
          cofaces'.
Proof.
  intros HK. split; [apply buildCofaceMap_consistent, HK|].
  intros st Hreach. pose proof (reachable_Inv K st HK Hreach) as HI.
  split; [apply HI|]. intros s t Hb.
  apply collapseMutation_consistent; [apply HI|apply HI|].
  apply (inv_pairs _ HI). by apply um_begin_member.
Qed.

Lemma coface_map_consistent_witness :
  complex full_triangle ∧
  coface_consistent full_triangle (buildCofaceMap full_triangle) ∧
  ∃ cofaces',
    collapseMutation [0; 1; 2] [1; 2] (buildCofaceMap full_triangle)
      = Some cofaces' ∧
    coface_consistent
      (remove_without_validation [1; 2]
         (remove_without_validation [0; 1; 2] full_triangle)) cofaces'.
Proof.
  split; [apply complex_check; vm_compute; reflexivity|].
  destruct (coface_map_consistent (M := NewestFirst.t) full_triangle)
    as [Hbuild Hloop]; [apply complex_check; vm_compute; reflexivity|].
  split; [exact Hbuild|].
  destruct (Hloop full_triangle_entry full_triangle_entry_reachable)
    as [_ Hmut].
  apply (Hmut [0; 1; 2] [1; 2]). reflexivity.
Defined.

(** ** C4: idempotence *)

(** C4. [spine] is idempotent: on the complex it returns it returns the
    same complex again, and that complex admits no elementary collapse: no
    member without cofaces in it (a principal simplex) has a face whose
    only coface in it is that member (a free face). *)
Theorem spine_idempotent {M : Type} `{UnorderedMap M} (K : SimplicialComplex) :
  complex K →
  ∃ L, spine (M := M) K = Returned L ∧
       spine (M := M) L = Returned L ∧
       collapse_free L ∧
       ∀ s t, s ∈ L → t ∈ boundary s →
              cofaces_of L s = ∅ → cofaces_of L t ≠ {[s]}.
Proof.
  intros HK. destruct (spine_spec K HK) as (L & Hrun & Hr & Hfree & _).
  destruct (rtc_collapse_complex K L HK Hr) as (HL & _).
  pose proof (buildCofaceMap_consistent L (complex_closed L HL)) as Hc.
  exists L. split_and!; [done| |done|].
  - apply spine_fuel_irreducible.
    by apply collapse_free_irreducible; [|apply HL|].
  - intros s t Hs Hb Hes Het.
    apply (Hfree (remove_without_validation t (remove_without_validation s L))).
    by exists s, t.
Qed.

Lemma spine_idempotent_witness :
  complex full_triangle ∧
  ∃ L, spine (M := NewestFirst.t) full_triangle = Returned L ∧
       spine (M := NewestFirst.t) L = Returned L ∧
       collapse_free L ∧
       ∀ s t, s ∈ L → t ∈ boundary s →
              cofaces_of L s = ∅ → cofaces_of L t ≠ {[s]}.
Proof.
  split.
  - apply complex_check. vm_compute. reflexivity.
  - apply (spine_idempotent full_triangle).
    apply complex_check. vm_compute. reflexivity.
Defined.

(** ** C5: [getFreeFace] *)

(** C5. [getFreeFace] answers "none" (the empty simplex) when [cofaces[s]]
    is not empty; otherwise it answers the first face [f] of [s], in
    boundary order, whose coface set has exactly one element, that element
    being [s]; and "none" when no face is such.  The entry of [s] and, when
    [s] is principal, those of its faces are taken to be present, as [at]
    requires. *)
Theorem getFreeFace_meets_spec (cofaces : CofaceMap) (s : Simplex) :
  is_Some (cofaces !! s) →
  (cofaces !! s = Some ∅ →
   Forall (λ f, is_Some (cofaces !! f)) (boundary s)) →
  getFreeFace cofaces s = Some (getFreeFace_spec cofaces s).
Proof.
  intros [C HC] Hall.
  unfold getFreeFace, getFreeFace_spec, isPrincipal, cofaces_at.
  rewrite HC. simpl. destruct (decide (C = ∅)) as [->|Hne].
  - rewrite bool_decide_eq_true_2 by done. simpl.
    apply firstFreeFace_spec. by apply Forall_forall, Hall.
  - by rewrite bool_decide_eq_false_2.
Qed.

Lemma getFreeFace_meets_spec_witness :
  is_Some (buildCofaceMap [[0; 1]; [0]; [1]] !! [0; 1]) ∧
  Forall (λ f, is_Some (buildCofaceMap [[0; 1]; [0]; [1]] !! f))
    (boundary [0; 1]) ∧
  getFreeFace (buildCofaceMap [[0; 1]; [0]; [1]]) [0; 1] = Some [1].
Proof.
  split; [vm_compute; by eexists|].
  split; [repeat constructor; vm_compute; by eexists|].
  apply (getFreeFace_meets_spec (buildCofaceMap [[0; 1]; [0]; [1]]) [0; 1]).
  - vm_compute; by eexists.
  - intros _. repeat constructor; vm_compute; by eexists.
Defined.

(** ** C6: termination *)

(** C6. The loop of [spine] terminates on every complex [K]: the run makes
    some number [n] of passes, each entered with a non-empty admissible map
    and each removing exactly two simplices, reaches a state with an empty
    map and returns the complex of that state, which has [2 * n] simplices
    fewer than [K]; a budget of [n] passes or more gives this result and a
    smaller one does not suffice.  At every state of the run: while the map
    is not empty the loop takes a pass, which removes exactly two simplices,
    and goes on from the state the pass ends in; the loop is left exactly
    when a full rebuild of the admissible map over the current complex is
    empty, and the current complex is then what is returned. *)
Theorem spine_terminates {M : Type} `{UnorderedMap M} (K : SimplicialComplex) :
  complex K →
  (∃ (n : nat) (st0 st : State (M := M)),
     spine_init K = Some st0 ∧ nsteps spine_step n st0 st ∧
     um_empty (st_admissible st) = true ∧
     length (st_L st) + 2 * n = length K ∧
     spine (M := M) K = Returned (st_L st) ∧
     ∀ fuel, spine_fuel (M := M) fuel K =
               if decide (n ≤ fuel) then Returned (st_L st) else Unfinished) ∧
  ∀ st : State (M := M), reachable K st →
    (um_empty (st_admissible st) = false →
     ∃ st', spine_body st = Some st' ∧
            length (st_L st') + 2 = length (st_L st) ∧
            spine_loop 0 st = Unfinished ∧
            ∀ fuel, spine_loop (S fuel) st = spine_loop fuel st') ∧
    (um_empty (st_admissible st) = true ↔
     ∃ admissible : M,
       getPrincipalFaces (st_cofaces st) (st_L st) = Some admissible ∧
       um_empty admissible = true) ∧
    (um_empty (st_admissible st) = true →
     ∀ fuel, spine_loop fuel st = Returned (st_L st)).
Proof.
  intros HK. split.
  - destruct (spine_init_Inv K HK) as (st0 & Hinit & HI & HL & _).
    destruct (spine_loop_passes (length K) st0) as (n & st & Hn & He & Hlen & Hfuel);
      [by rewrite HL|done|].
    rewrite HL in Hlen.
    assert (Hrun : ∀ fuel, spine_fuel (M := M) fuel K =
              if decide (n ≤ fuel) then Returned (st_L st) else Unfinished).
    { intros fuel. unfold spine_fuel. by rewrite Hinit. }
    exists n, st0, st. split_and!; try done.
    unfold spine. rewrite Hrun. by rewrite decide_True by lia.
  - intros st Hreach. pose proof (reachable_Inv K st HK Hreach) as HI.
    split_and!.
    + intros He.
      destruct (spine_body_length st HI He) as (st' & Hstep & _ & Hl).
      exists st'. split_and!; [apply Hstep|done|simpl; by rewrite He|].
      intros fuel. by apply spine_loop_step.
    + by apply exit_iff_rebuild_empty.
    + intros He fuel. by apply spine_loop_empty.
Qed.

Lemma spine_terminates_witness :
  complex full_triangle ∧
  ∃ (n : nat) (st0 st : State (M := NewestFirst.t)),
    spine_init full_triangle = Some st0 ∧ nsteps spine_step n st0 st ∧
    um_empty (st_admissible st) = true ∧
    length (st_L st) + 2 * n = length full_triangle ∧
    spine (M := NewestFirst.t) full_triangle = Returned (st_L st) ∧
    ∀ fuel, spine_fuel (M := NewestFirst.t) fuel full_triangle =
              if decide (n ≤ fuel) then Returned (st_L st) else Unfinished.
Proof.
  split.
  - apply complex_check. vm_compute. reflexivity.
  - apply (spine_terminates (M := NewestFirst.t) full_triangle).
    apply complex_check. vm_compute. reflexivity.
Defined.

(** ** C7: the full triangle *)

(** C7. On the full 2-simplex with all its faces [spine] returns a single
    vertex, a complex of size 1, whatever the order of the unordered map. *)
Theorem spine_full_triangle {M : Type} `{UnorderedMap M} :
  ∃ v, spine (M := M) full_triangle = Returned [[v]].
Proof.
  destruct (spine_spec full_triangle full_triangle_complex)
    as (L & Hrun & Hr & Hfree & _).
  destruct (rtc_collapse_complex _ L full_triangle_complex Hr)
    as (HL & _ & Hsub & He).
  pose proof full_triangle_subcomplexes as Hall.
  rewrite forallb_forall in Hall.
  specialize (Hall L (proj1 (list_elem_of_In _ _) (elem_of_sublists _ _ Hsub))).
  rewrite (proj2 (face_closedb_true L) (complex_closed L HL)) in Hall.
  rewrite (bool_decide_eq_true_2 _ He) in Hall.
  rewrite (collapse_freeb_true L Hfree) in Hall. simpl in Hall.
  destruct L as [|[|v []] []]; try done. by exists v.
Qed.

(** ** C8: the hollow triangle *)

(** C8. The hollow triangle holds no admissible pair: every vertex has two
    cofaces, so no edge has a free face; [spine] returns it unchanged, with
    its 6 simplices. *)
Theorem spine_hollow_triangle {M : Type} `{UnorderedMap M} :
  Forall (λ v, size <$> buildCofaceMap hollow_triangle !! [v] = Some 2)
    [0; 1; 2] ∧
  Forall (λ s, getFreeFace (buildCofaceMap hollow_triangle) s = Some [])
    hollow_triangle ∧
  (∀ s t, ¬ admissible_pair hollow_triangle (buildCofaceMap hollow_triangle) s t) ∧
  spine (M := M) hollow_triangle = Returned hollow_triangle ∧
  length hollow_triangle = 6.
Proof.
  assert (HF : Forall (λ s, getFreeFace (buildCofaceMap hollow_triangle) s
                             = Some []) hollow_triangle)
    by by repeat constructor.
  assert (Hirr : irreducible hollow_triangle (buildCofaceMap hollow_triangle))
    by (intros s Hs; by apply (proj1 (Forall_forall _ _) HF)).
  pose proof hollow_triangle_complex as HK.
  pose proof (buildCofaceMap_consistent _ (complex_closed _ HK)) as Hc.
  split_and!.
  - by repeat constructor.
  - done.
  - intros s t Hp.
    destruct (getFreeFace_admissible _ _ s t Hc (complex_closed _ HK) Hp)
      as (f & Hf & Hb).
    rewrite Hirr in Hf by apply Hp. by injection Hf as <-.
  - by apply spine_fuel_irreducible.
  - done.
Qed.

(** ** C9: determinism *)

(** The order of the unordered map shows in the result: on the same
    complex, enumerated in the same order, the map that designates its
    newest entry and the map that designates its oldest entry lead [spine]
    to different vertices. *)
Lemma spine_depends_on_selection :
  spine (M := NewestFirst.t) two_triangles_and_edge = Returned [[0]] ∧
  spine (M := OldestFirst.t) two_triangles_and_edge = Returned [[2]].
Proof. split; by vm_compute. Qed.

(** C9. [spine] is deterministic: two runs on the same complex, enumerated
    in the same order, in which [admissible.begin()] designates the same
    keys pass by pass, return the same complex, simplex by simplex; the two
    runs may keep their admissible pairs in unordered maps of different
    kinds.  The complex returned is the input without the selected keys and
    their free faces. *)
Theorem spine_deterministic {M1 : Type} `{UnorderedMap M1}
  {M2 : Type} `{UnorderedMap M2} (K : SimplicialComplex) :
  complex K →
  spine_selections (M := M1) K = spine_selections (M := M2) K →
  ∃ L, spine (M := M1) K = Returned L ∧ spine (M := M2) K = Returned L ∧
       length L + 2 * length (spine_selections (M := M1) K) = length K ∧
       ∀ s, s ∈ spine_selections (M := M1) K → s ∈ K ∧ s ∉ L.
Proof.
  intros HK Hsel. destruct (spine_spec (M := M1) K HK) as (L & Hrun & _).
  exists L. split_and!; [done| |by apply spine_selections_removed..].
  rewrite <- Hrun. symmetry. by apply same_selections_same_outcome.
Qed.

Lemma spine_deterministic_witness :
  complex hollow_triangle_with_tail ∧
  spine_selections (M := NewestFirst.t) hollow_triangle_with_tail
  = spine_selections (M := OldestFirst.t) hollow_triangle_with_tail ∧
  ∃ L, spine (M := NewestFirst.t) hollow_triangle_with_tail = Returned L ∧
       spine (M := OldestFirst.t) hollow_triangle_with_tail = Returned L ∧
       length L
       + 2 * length (spine_selections (M := NewestFirst.t)
                       hollow_triangle_with_tail)
       = length hollow_triangle_with_tail ∧
       ∀ s, s ∈ spine_selections (M := NewestFirst.t)
                  hollow_triangle_with_tail →
            s ∈ hollow_triangle_with_tail ∧ s ∉ L.
Proof.
  split; [apply complex_check; vm_compute; reflexivity|].
  split; [vm_compute; reflexivity|].
  apply (spine_deterministic (M1 := NewestFirst.t) (M2 := OldestFirst.t)
           hollow_triangle_with_tail).
  - apply complex_check. vm_compute. reflexivity.
  - vm_compute. reflexivity.
Defined.

(** ** C10: the passes of the loop are safe *)

(** C10. In every pass of the loop the pairs in the admissible map, the
    selected one among them, are pairs of simplices still in the working
    complex and in the coface map, with no coface of [s] and [s] the only
    coface of [t]; the lookups of the collapse mutation and of the re-probe
    find their keys, so that the body runs to its end; and at each of the
    two unchecked removals the simplex removed is a codimension-1 face of
    no remaining member. *)
Theorem spine_pass_safe {M : Type} `{UnorderedMap M}
  (K : SimplicialComplex) (st : State (M := M)) :
  complex K → reachable K st →
  (∀ s t, um_content (st_admissible st) !! s = Some t →
     s ∈ st_L st ∧ t ∈ st_L st ∧ t ∈ boundary s ∧
     st_cofaces st !! s = Some ∅ ∧ st_cofaces st !! t = Some {[s]}) ∧
  (∀ s t, um_begin (st_admissible st) = Some (s, t) →
     um_content (st_admissible st) !! s = Some t ∧
     (∃ cofaces' admissible',
        collapseMutation s t (st_cofaces st) = Some cofaces' ∧
        reprobe s t cofaces' (um_erase s (st_admissible st))
          = Some admissible' ∧
        is_Some (spine_body st)) ∧
     (∀ u, u ∈ remove_without_validation s (st_L st) → s ∉ boundary u) ∧
     (∀ u, u ∈ remove_without_validation t
                 (remove_without_validation s (st_L st)) →
           t ∉ boundary u)).
Proof.
  intros HK Hreach. pose proof (reachable_Inv K st HK Hreach) as HI.
  split; [apply (inv_pairs _ HI)|].
  intros s t Hb. pose proof (um_begin_member _ _ _ Hb) as Hst.
  pose proof (inv_pairs _ HI s t Hst) as Hp.
  destruct (admissible_pair_cofaces _ _ s t (inv_cofaces _ HI) Hp) as [Hes Het].
  split_and!; [done| | |].
  - assert (Hne : um_empty (st_admissible st) = false).
    { destruct (um_empty (st_admissible st)) eqn:He; [|done].
      apply um_empty_spec in He. by rewrite He, lookup_empty in Hst. }
    destruct (spine_body_Inv st HI Hne)
      as (s' & t' & st' & Hb' & _ & Hbody & _ & Hmut & _).
    assert (s' = s ∧ t' = t) as [-> ->] by (split; congruence).
    exists (st_cofaces st'). unfold spine_body in Hbody.
    rewrite Hb in Hbody. simpl in Hbody. rewrite Hmut in Hbody.
    simpl in Hbody.
    destruct (reprobe s t (st_cofaces st') (um_erase s (st_admissible st)))
      as [adm'|] eqn:Hre; [|done].
    exists adm'. split_and!; [done|done|].
    unfold spine_body. rewrite Hb. simpl. rewrite Hmut. simpl.
    rewrite Hre. done.
  - intros u Hu Hsu. apply elem_of_remove in Hu as [_ Hu].
    assert (u ∈ cofaces_of (st_L st) s) by by apply elem_of_cofaces_of.
    set_solver.
  - intros u Hu Htu. rewrite !elem_of_remove in Hu. destruct Hu as (_ & Hus & Hu).
    assert (u ∈ cofaces_of (st_L st) t) by by apply elem_of_cofaces_of.
    set_solver.
Qed.

Lemma spine_pass_safe_witness :
  complex full_triangle ∧
  reachable full_triangle full_triangle_entry ∧
  [0; 1; 2] ∈ full_triangle ∧ [1; 2] ∈ full_triangle ∧
  [1; 2] ∈ boundary [0; 1; 2] ∧
  buildCofaceMap full_triangle !! [0; 1; 2] = Some ∅ ∧
  buildCofaceMap full_triangle !! [1; 2] = Some {[ [0; 1; 2] ]}.
Proof.
  split; [apply complex_check; vm_compute; reflexivity|].
  split; [apply full_triangle_entry_reachable|].
  destruct (spine_pass_safe full_triangle full_triangle_entry) as [Hpairs _].
  - apply complex_check. vm_compute. reflexivity.
  - apply full_triangle_entry_reachable.
  - apply (Hpairs [0; 1; 2] [1; 2]). vm_compute. reflexivity.
Defined.

(** * Further properties of the code *)

(** ** The coface map on arbitrary input *)

(** X1. Whatever the sequence [K], closed under faces or not,
    [buildCofaceMap] holds a key exactly for the members of [K] and for the
    faces of members (which [operator[]] creates when they are missing from
    [K]), and the entry of a key is the set of the members that have it as
    a face. *)
Theorem buildCofaceMap_keys_and_entries (K : SimplicialComplex) :
  (∀ s, is_Some (buildCofaceMap K !! s) ↔
        s ∈ K ∨ ∃ u, u ∈ K ∧ s ∈ boundary u) ∧
  (∀ s C, buildCofaceMap K !! s = Some C →
          ∀ u, u ∈ C ↔ u ∈ K ∧ s ∈ boundary u).
Proof.
  assert (Hne : ∀ s, cofaces_of K s ≠ ∅ ↔ ∃ u, u ∈ K ∧ s ∈ boundary u).
  { intros s. split.
    - intros Hs. apply set_choose_L in Hs as [u Hu].
      exists u. by apply elem_of_cofaces_of.
    - intros (u & Hu) Hempty. apply elem_of_cofaces_of in Hu.
      rewrite Hempty in Hu. set_solver. }
  split; intros s; unfold buildCofaceMap;
    rewrite buildCofaceMap_fold_lookup, lookup_empty; simpl.
  - rewrite <- Hne. case_decide as Hd.
    + split; [done|by eexists].
    + split; [by intros [? ?]|done].
  - intros C. case_decide; [|done]. intros [= <-] u. rewrite union_empty_l_L.
    apply elem_of_cofaces_of.
Qed.

(** ** When the lookups of [getFreeFace] fail *)

Lemma firstFreeFace_None (cofaces : CofaceMap) (s : Simplex)
  (faces : list Simplex) :
  firstFreeFace cofaces s faces = None ↔
  ∃ pre f post, faces = pre ++ f :: post ∧ cofaces !! f = None ∧
                ∀ g, g ∈ pre → is_Some (cofaces !! g) ∧ cofaces !! g ≠ Some {[s]}.
Proof.
  induction faces as [|g faces IH]; simpl.
  - split; [done|]. intros (pre & f & post & Heq & _). by destruct pre.
  - unfold cofaces_at. destruct (cofaces !! g) as [C|] eqn:Hg; simpl.
    + destruct (bool_decide (size C = 1) && bool_decide (s ∈ C)) eqn:Ht.
      * apply free_face_test in Ht. subst C. split; [done|].
        intros (pre & f & post & Heq & Hf & Hpre).
        destruct pre as [|g' pre]; simplify_eq/=.
        destruct (Hpre g') as [_ Hne]; [set_solver|]. done.
      * rewrite IH. split.
        -- intros (pre & f & post & -> & Hf & Hpre).
           exists (g :: pre), f, post. split_and!; [done|done|].
           intros g' Hg'. apply elem_of_cons in Hg' as [->|Hg']; [|by apply Hpre].
           rewrite Hg. split; [by eexists|]. intros [= ->].
           assert (bool_decide (size ({[s]} : gset Simplex) = 1)
                   && bool_decide (s ∈ ({[s]} : gset Simplex)) = true)
             by by apply free_face_test.
           congruence.
        -- intros (pre & f & post & Heq & Hf & Hpre).
           destruct pre as [|g' pre]; simplify_eq/=.
           exists pre, f, post. split_and!; [done|done|].
           intros g0 Hg0. apply Hpre. set_solver.
    + split; [|done]. intros _. exists [], g, faces. split_and!; [done|done|].
      intros g' Hg'. by apply elem_of_nil in Hg'.
Qed.

(** X2. [getFreeFace] leaves through [std::out_of_range] in two cases only:
    [s] is not a key of the coface map, or [s] is principal and the scan of
    its boundary reaches a face that is not a key before it has found a
    free face. *)
Theorem getFreeFace_throws_iff (cofaces : CofaceMap) (s : Simplex) :
  getFreeFace cofaces s = None ↔
  cofaces !! s = None ∨
  (cofaces !! s = Some ∅ ∧
   ∃ pre f post,
     boundary s = pre ++ f :: post ∧ cofaces !! f = None ∧
     ∀ g, g ∈ pre → is_Some (cofaces !! g) ∧ cofaces !! g ≠ Some {[s]}).
Proof.
  unfold getFreeFace, isPrincipal, cofaces_at.
  destruct (cofaces !! s) as [C|] eqn:Hs; simpl; [|by split; [left|]].
  destruct (bool_decide_reflect (C = ∅)) as [->|Hne]; simpl.
  - rewrite firstFreeFace_None. split; [by right|]. by intros [|[_ ?]].
  - split; [done|]. intros [|[[= ?] _]]; done.
Qed.

(** ** The collapse mutation on arbitrary maps *)

Lemma removeSimplices_for_each_None (s t : Simplex) (faces : list Simplex)
  (cofaces : CofaceMap) :
  for_each (removeSimplices s t) faces cofaces = None ↔
  ∃ f, f ∈ faces ∧ cofaces !! f = None.
Proof.
  split.
  - intros Hnone.
    destruct (decide (Forall (λ f, is_Some (cofaces !! f)) faces)) as [Hall|Hex].
    + destruct (removeSimplices_for_each s t faces cofaces) as (c' & Hc' & _);
        [by apply Forall_forall|congruence].
    + apply not_Forall_Exists in Hex; [|apply _].
      apply Exists_exists in Hex as (f & Hf & Hnot). exists f. split; [done|].
      by apply eq_None_not_Some.
  - revert cofaces. induction faces as [|g faces IH]; intros cofaces (f & Hf & Hnone).
    + by apply elem_of_nil in Hf.
    + cbn [for_each]. destruct (cofaces !! g) as [C|] eqn:Hg.
      * rewrite (removeSimplices_Some s t cofaces g C Hg). simpl.
        apply IH. destruct (decide (f = g)) as [->|Hne]; [congruence|].
        exists f. split; [set_solver|]. by rewrite lookup_insert_ne.
      * unfold removeSimplices, cofaces_at. by rewrite Hg.
Qed.

(** X3. The collapse mutation for [(s,t)] runs to its end exactly when every
    face of [s] and every face of [t] is a key.  It then removes the keys
    [s] and [t] and no other, takes [s] and [t] out of the entries of those
    faces, and leaves every other entry as it was. *)
Theorem collapseMutation_effect (s t : Simplex) (cofaces : CofaceMap) :
  (is_Some (collapseMutation s t cofaces) ↔
   ∀ f, f ∈ boundary s ++ boundary t → is_Some (cofaces !! f)) ∧
  (∀ cofaces', collapseMutation s t cofaces = Some cofaces' →
     ∀ x, cofaces' !! x =
            if decide (x = s ∨ x = t) then None
            else if decide (x ∈ boundary s ++ boundary t)
                 then (λ C, C ∖ {[s]} ∖ {[t]}) <$> cofaces !! x
                 else cofaces !! x).
Proof.
  unfold collapseMutation.
  destruct (for_each (removeSimplices s t) (boundary s) cofaces) as [c1|] eqn:H1.
  - assert (Hk1 : ∀ f, f ∈ boundary s → is_Some (cofaces !! f)).
    { intros f Hf. destruct (cofaces !! f) eqn:Hcf; [by eexists|].
      assert (for_each (removeSimplices s t) (boundary s) cofaces = None)
        by (apply removeSimplices_for_each_None; eauto).
      congruence. }
    destruct (removeSimplices_for_each s t (boundary s) cofaces Hk1)
      as (c1' & H1' & Hl1).
    assert (c1' = c1) as -> by congruence. simpl.
    assert (Hsame : ∀ f, is_Some (c1 !! f) ↔ is_Some (cofaces !! f)).
    { intros f. rewrite Hl1. case_decide; [|done]. by rewrite fmap_is_Some. }
    destruct (for_each (removeSimplices s t) (boundary t) c1) as [c2|] eqn:H2.
    + assert (Hk2 : ∀ f, f ∈ boundary t → is_Some (c1 !! f)).
      { intros f Hf. destruct (c1 !! f) eqn:Hcf; [by eexists|].
        assert (for_each (removeSimplices s t) (boundary t) c1 = None)
          by (apply removeSimplices_for_each_None; eauto).
        congruence. }
      destruct (removeSimplices_for_each s t (boundary t) c1 Hk2)
        as (c2' & H2' & Hl2).
      assert (c2' = c2) as -> by congruence. simpl. split.
      * split; [|by eexists]. intros _ f Hf.
        apply elem_of_app in Hf as [Hf|Hf]; [by apply Hk1|by apply Hsame, Hk2].
      * intros c' [= <-] x.
        destruct (decide (x = t)) as [->|Hxt].
        { rewrite lookup_delete_eq. by rewrite decide_True by tauto. }
        rewrite lookup_delete_ne by done.
        destruct (decide (x = s)) as [->|Hxs].
        { rewrite lookup_delete_eq. by rewrite decide_True by tauto. }
        rewrite lookup_delete_ne by done.
        rewrite decide_False by tauto. rewrite Hl2, Hl1.
        destruct (decide (x ∈ boundary s)) as [Hs|Hs];
          destruct (decide (x ∈ boundary t)) as [Ht|Ht].
        -- rewrite decide_True by set_solver.
           destruct (cofaces !! x); simpl; f_equal; set_solver.
        -- by rewrite decide_True by set_solver.
        -- by rewrite decide_True by set_solver.
        -- by rewrite decide_False by set_solver.
    + simpl. split; [|done]. split; [by intros [? ?]|]. intros Hall.
      apply removeSimplices_for_each_None in H2 as (f & Hf & Hnone).
      destruct (Hall f) as [C HC]; [set_solver|].
      assert (is_Some (c1 !! f)) as [? ?] by (apply Hsame; by eexists).
      congruence.
  - simpl. split; [|done]. split; [by intros [? ?]|]. intros Hall.
    apply removeSimplices_for_each_None in H1 as (f & Hf & Hnone).
    destruct (Hall f) as [C HC]; [set_solver|]. congruence.
Qed.

(** ** The tests of the reference implementation and the coface map *)

Lemma filter_ext_in {A : Type} (P Q : A → Prop) `{∀ x, Decision (P x)}
  `{∀ x, Decision (Q x)} (l : list A) :
  (∀ x, x ∈ l → (P x ↔ Q x)) → filter P l = filter Q l.
Proof.
  induction l as [|x l IH]; intros Hext; [done|].
  rewrite !filter_cons. rewrite IH by (intros; apply Hext; set_solver).
  destruct (decide (P x)) as [HP|HP], (decide (Q x)) as [HQ|HQ]; try done;
    exfalso; apply (Hext x) in HP || apply (Hext x) in HQ; set_solver.
Qed.

Lemma sizeOfIntersection_full (f u : Simplex) :
  sizeOfIntersection f u = length f ↔ ∀ v, v ∈ f → v ∈ u.
Proof.
  unfold sizeOfIntersection, intersect. induction f as [|a f IH].
  - split; [intros _ v Hv; by apply elem_of_nil in Hv|done].
  - rewrite filter_cons. pose proof (length_filter (λ v, v ∈ u) f) as Hle.
    destruct (decide (a ∈ u)) as [Ha|Ha]; simpl.
    + split.
      * intros Hl v Hv. apply elem_of_cons in Hv as [->|Hv]; [done|].
        apply IH; [lia|done].
      * intros Hsub. f_equal. apply IH. intros v Hv. apply Hsub. set_solver.
    + split; [lia|]. intros Hsub. destruct Ha. apply Hsub. set_solver.
Qed.

(** On normalised simplices, containing all vertices of a simplex one
    dimension down is having it as a face. *)
Lemma contains_iff_face (f u : Simplex) :
  StronglySorted lt f → StronglySorted lt u → 1 ≤ length f →
  (dimension f + 1 = dimension u ∧ sizeOfIntersection f u = length f) ↔
  f ∈ boundary u.
Proof.
  intros Hf Hu Hlen. rewrite sizeOfIntersection_full. split.
  - intros [Hdim Hsub]. unfold dimension in Hdim.
    assert (f ∈ drop_each u) by (apply sorted_face; [done|done|lia|done]).
    destruct u as [|a [|b u]]; simpl in Hdim; [lia|lia|done].
  - intros Hb. split.
    + apply boundary_length in Hb. unfold dimension. lia.
    + intros v. by apply boundary_subset.
Qed.

Lemma isPrincipal_fold (s : Simplex) (l : SimplicialComplex) (b : bool) :
  foldl (λ principal t,
           if bool_decide (sizeOfIntersection s t = length s) then false
           else principal) b l = true ↔
  b = true ∧ ∀ t, t ∈ l → sizeOfIntersection s t ≠ length s.
Proof.
  revert b. induction l as [|u l IH]; intros b; cbn [foldl].
  - split; [|by intros [? _]]. intros ->. split; [done|].
    intros t Ht. by apply elem_of_nil in Ht.
  - rewrite IH. destruct (bool_decide_reflect (sizeOfIntersection s u = length s))
      as [Heq|Hne].
    + split; [by intros [? _]|]. intros [_ Hall]. destruct (Hall u); set_solver.
    + split; intros [Hb Hall]; (split; [done|]).
      * intros t Ht. apply elem_of_cons in Ht as [->|Ht]; auto.
      * intros t Ht. apply Hall. set_solver.
Qed.

Lemma elem_of_range (d : nat) (K : SimplicialComplex) (u : Simplex) :
  u ∈ range d K ↔ dimension u = d ∧ u ∈ K.
Proof. unfold range. by rewrite list_elem_of_filter. Qed.

Lemma dumb_isPrincipal_cofaces (K : SimplicialComplex) (s : Simplex) :
  normalised K → StronglySorted lt s → s ≠ [] →
  dumb.isPrincipal s K = true ↔ dimension s ≠ 0 ∧ cofaces_of K s = ∅.
Proof.
  intros Hn Hs Hne. unfold dumb.isPrincipal.
  destruct (bool_decide_reflect (dimension s = 0)) as [Hd|Hd];
    [split; [done|by intros [? _]]|].
  rewrite isPrincipal_fold.
  assert (Hlen : 1 ≤ length s) by (destruct s; [done|simpl; lia]).
  split.
  - intros [_ Hall]. split; [done|]. apply set_eq. intros u.
    rewrite elem_of_cofaces_of. split; [|set_solver]. intros [Hu Hb].
    assert (StronglySorted lt u) as Hsu
      by by apply (proj1 (Forall_forall _ _) Hn).
    apply (contains_iff_face s u Hs Hsu Hlen) in Hb as [Hdim Hsz].
    destruct (Hall u); [|done]. by apply elem_of_range.
  - intros [_ Hempty]. split; [done|]. intros t Ht Hsz.
    apply elem_of_range in Ht as [Hdim Ht].
    assert (StronglySorted lt t) as Hst
      by by apply (proj1 (Forall_forall _ _) Hn).
    assert (t ∈ cofaces_of K s) as Hin.
    { apply elem_of_cofaces_of. split; [done|].
      by apply (contains_iff_face s t Hs Hst Hlen). }
    rewrite Hempty in Hin. set_solver.
Qed.

(** X4. On the members of a complex of normalised simplices
    [dumb::isPrincipal], which scans the members one dimension up, answers
    what [isPrincipal] reads off the coface map built from the complex,
    except on vertices: these [dumb::isPrincipal] never calls principal. *)
Theorem dumb_isPrincipal_iff (K : SimplicialComplex) (s : Simplex) :
  normalised K → s ∈ K → s ≠ [] →
  dumb.isPrincipal s K = true ↔
  dimension s ≠ 0 ∧ isPrincipal (buildCofaceMap K) s = Some true.
Proof.
  intros Hn Hs Hne.
  assert (StronglySorted lt s) as Hss
    by by apply (proj1 (Forall_forall _ _) Hn).
  rewrite (dumb_isPrincipal_cofaces K s Hn Hss Hne).
  assert (buildCofaceMap K !! s = Some (cofaces_of K s)) as Hlook.
  { unfold buildCofaceMap.
    rewrite buildCofaceMap_fold_lookup, lookup_empty. simpl.
    rewrite decide_True by by left. by rewrite union_empty_l_L. }
  unfold isPrincipal, cofaces_at. rewrite Hlook. simpl.
  split; intros [Hd He]; (split; [done|]).
  - by rewrite bool_decide_eq_true_2.
  - injection He as He. by apply bool_decide_eq_true_1 in He.
Qed.

Lemma dumb_isPrincipal_iff_witness :
  normalised full_triangle ∧ [0; 1; 2] ∈ full_triangle ∧
  [0; 1; 2] ≠ [] ∧
  (dumb.isPrincipal [0; 1; 2] full_triangle = true ↔
   dimension [0; 1; 2] ≠ 0 ∧
   isPrincipal (buildCofaceMap full_triangle) [0; 1; 2] = Some true).
Proof.
  split; [apply (bool_decide_unpack _); vm_compute; exact I|].
  split; [apply (bool_decide_unpack _); vm_compute; exact I|].
  split; [discriminate|].
  apply (dumb_isPrincipal_iff full_triangle [0; 1; 2]).
  - apply (bool_decide_unpack _). vm_compute. exact I.
  - apply (bool_decide_unpack _). vm_compute. exact I.
  - discriminate.
Defined.

Lemma existsb_range (d : nat) (test : Simplex → bool) (K : SimplicialComplex) :
  existsb test (range d K)
  = existsb (λ t, bool_decide (dimension t = d) && test t) K.
Proof.
  unfold range. induction K as [|u l IH]; [done|].
  rewrite filter_cons. cbn [existsb].
  destruct (decide (dimension u = d)) as [Hd|Hd].
  - rewrite bool_decide_eq_true_2 by done. cbn [existsb andb]. by rewrite IH.
  - rewrite bool_decide_eq_false_2 by done. cbn [andb orb]. by rewrite IH.
Qed.

Section FreeFaces.

Context (K : SimplicialComplex) (s : Simplex).
Hypothesis Hn : normalised K.
Hypothesis Hs : s ∈ K.

Lemma member_sorted (u : Simplex) : u ∈ K → StronglySorted lt u.
Proof. intros Hu. by apply (proj1 (Forall_forall _ _) Hn). Qed.

Lemma other_coface_iff (f : Simplex) (test : Simplex → bool) :
  f ∈ boundary s →
  (∀ t, t ∈ K → test t = true ↔ t ≠ s ∧ f ∈ boundary t) →
  existsb test K = false ↔ cofaces_of K f = {[s]}.
Proof.
  intros Hf Htest. split.
  - intros Hex. apply set_eq. intros u.
    rewrite elem_of_cofaces_of, elem_of_singleton. split; [|by intros ->].
    intros [Hu Hb]. destruct (decide (u = s)) as [|Hne]; [done|]. exfalso.
    assert (existsb test K = true); [|congruence].
    apply existsb_exists. exists u. split; [by apply list_elem_of_In|].
    by apply Htest.
  - intros Hco. destruct (existsb test K) eqn:Hex; [|done]. exfalso.
    apply existsb_exists in Hex as (u & Hu & Ht). apply list_elem_of_In in Hu.
    apply Htest in Ht as [Hne Hb]; [|done].
    assert (u ∈ cofaces_of K f) as Hin by by apply elem_of_cofaces_of.
    rewrite Hco in Hin. set_solver.
Qed.

Lemma face_flag_iff (f : Simplex) :
  f ∈ boundary s → dumb.face_flag s K f = true ↔ cofaces_of K f = {[s]}.
Proof.
  intros Hf. unfold dumb.face_flag. rewrite negb_true_iff, existsb_range.
  apply other_coface_iff; [done|]. intros t Ht.
  pose proof (member_sorted s Hs) as Hss.
  pose proof (boundary_sorted s f Hss Hf) as Hsf.
  pose proof (boundary_length s f Hf) as [Hl Hpos].
  rewrite !andb_true_iff, !bool_decide_eq_true.
  rewrite <- (contains_iff_face f t Hsf (member_sorted t Ht) Hpos).
  unfold dimension. split; [intros (? & ? & ?)|intros (? & ? & ?)];
    split_and!; try done; lia.
Qed.

Lemma isFace_iff (f : Simplex) :
  f ∈ boundary s → dumb.isFace K s f = false ↔ cofaces_of K f = {[s]}.
Proof.
  intros Hf. unfold dumb.isFace. apply other_coface_iff; [done|]. intros t Ht.
  pose proof (member_sorted s Hs) as Hss.
  pose proof (boundary_sorted s f Hss Hf) as Hsf.
  pose proof (boundary_length s f Hf) as [Hl Hpos].
  rewrite !andb_true_iff, !bool_decide_eq_true.
  rewrite <- (contains_iff_face f t Hsf (member_sorted t Ht) Hpos).
  rewrite sizeOfIntersection_full. split.
  - intros [[? ?] Hint]. split_and!; [done|done|].
    intros v. by apply intersect_eq_subset.
  - intros (? & ? & Hsub). split_and!; [done|done|].
    by apply intersect_subset.
Qed.

Lemma find_true_map (test : Simplex → bool) (faces : list Simplex) :
  match dumb.find_true (map test faces) with
  | None => Some []
  | Some pos => faces !! pos
  end = Some (default [] (head (filter (λ f, test f = true) faces))).
Proof.
  induction faces as [|f faces IH]; [done|]. simpl. rewrite filter_cons.
  destruct (test f) eqn:Ht.
  - by rewrite decide_True.
  - rewrite decide_False by done. rewrite <- IH.
    by destruct (dumb.find_true (map test faces)).
Qed.

Lemma findFreeFace_head (faces : list Simplex) :
  dumb.findFreeFace K s faces
  = head (filter (λ f, dumb.isFace K s f = false) faces).
Proof.
  induction faces as [|f faces IH]; [done|]. simpl. rewrite filter_cons.
  destruct (dumb.isFace K s f) eqn:Hf.
  - by rewrite decide_False.
  - by rewrite decide_True.
Qed.

Lemma findFreeFace_first_free_face :
  dumb.findFreeFace K s (boundary s) = first_free_face K s.
Proof.
  rewrite findFreeFace_head. unfold first_free_face. f_equal.
  apply filter_ext_in. intros f Hf. by apply isFace_iff.
Qed.

Lemma getFreeFace_first_free_face :
  face_closed K →
  getFreeFace (buildCofaceMap K) s =
    Some (if decide (cofaces_of K s = ∅)
          then default [] (first_free_face K s) else []).
Proof.
  intros Hcl. pose proof (buildCofaceMap_consistent K Hcl) as Hc.
  unfold getFreeFace, isPrincipal, cofaces_at.
  rewrite (consistent_lookup_member K _ s Hc Hs). simpl.
  destruct (decide (cofaces_of K s = ∅)) as [He|He].
  - rewrite bool_decide_eq_true_2 by done. simpl.
    rewrite firstFreeFace_spec.
    + unfold first_free_face. do 3 f_equal. apply filter_ext_in.
      intros f Hf. rewrite (consistent_lookup_member K _ f Hc)
        by by apply (Hcl s f).
      split; [by intros [= ?]|by intros ->].
    + intros f Hf. rewrite (consistent_lookup_member K _ f Hc); [by eexists|].
      by apply (Hcl s f).
  - by rewrite bool_decide_eq_false_2.
Qed.

End FreeFaces.

(** X5. On a face-closed complex of normalised simplices the scan of
    [dumb::isAdmissible] over the complex and the lookups of [getFreeFace]
    in the coface map give the same answer for every member: the same free
    face, or "none" in the same cases. *)
Theorem isAdmissible_agrees_with_getFreeFace (K : SimplicialComplex)
  (s : Simplex) :
  normalised K → face_closed K → s ∈ K → s ≠ [] →
  dumb.isAdmissible s K = getFreeFace (buildCofaceMap K) s.
Proof.
  intros Hn Hcl Hs Hne.
  rewrite (getFreeFace_first_free_face K s Hs Hcl).
  unfold dumb.isAdmissible.
  pose proof (dumb_isPrincipal_cofaces K s Hn (member_sorted K Hn s Hs) Hne)
    as Hp.
  destruct (dumb.isPrincipal s K) eqn:Hpr; simpl.
  - destruct Hp as [[Hd He] _]; [done|]. rewrite decide_True by done.
    rewrite find_true_map. unfold first_free_face. do 3 f_equal.
    apply filter_ext_in. intros f Hf. by apply face_flag_iff.
  - destruct (decide (cofaces_of K s = ∅)) as [He|He]; [|done].
    destruct (decide (dimension s = 0)) as [Hd|Hd].
    + unfold first_free_face. unfold dimension in Hd.
      destruct s as [|a [|b s]]; [by destruct Hne| |simpl in Hd; lia].
      cbn [boundary]. by rewrite filter_nil.
    + destruct Hp as [_ Hp]. by specialize (Hp (conj Hd He)).
Qed.

Lemma isAdmissible_agrees_with_getFreeFace_witness :
  normalised full_triangle ∧ face_closed full_triangle ∧
  [0; 1; 2] ∈ full_triangle ∧ [0; 1; 2] ≠ [] ∧
  dumb.isAdmissible [0; 1; 2] full_triangle
  = getFreeFace (buildCofaceMap full_triangle) [0; 1; 2].
Proof.
  split; [apply (bool_decide_unpack _); vm_compute; exact I|].
  split; [apply face_closedb_true; vm_compute; reflexivity|].
  split; [apply (bool_decide_unpack _); vm_compute; exact I|].
  split; [discriminate|].
  apply (isAdmissible_agrees_with_getFreeFace full_triangle [0; 1; 2]).
  - apply (bool_decide_unpack _). vm_compute. exact I.
  - apply face_closedb_true. vm_compute. reflexivity.
  - apply (bool_decide_unpack _). vm_compute. exact I.
  - discriminate.
Defined.

(** ** The admissible maps of the two engines *)

Section AdmissibleMaps.

Context {M : Type} `{UnorderedMap M}.

Lemma insert_content_lookup (admissible : M) (k v s : Simplex) :
  um_content (um_insert k v admissible) !! s =
    match um_content admissible !! s with
    | Some w => Some w
    | None => if decide (s = k) then Some v else None
    end.
Proof.
  rewrite um_content_insert.
  destruct (um_content admissible !! k) eqn:Hk.
  - destruct (um_content admissible !! s) eqn:Hs; [done|].
    case_decide; [congruence|done].
  - destruct (decide (s = k)) as [->|Hne].
    + by rewrite lookup_insert_eq, Hk.
    + rewrite lookup_insert_ne by done. by destruct (um_content admissible !! s).
Qed.

Lemma step1_content_exact (K l : SimplicialComplex) (admissible : M)
  (s : Simplex) :
  um_content (foldl (dumb.principalFaces_step1 K) admissible l) !! s =
    match um_content admissible !! s with
    | Some w => Some w
    | None => if decide (s ∈ l) then step1_pair K s else None
    end.
Proof.
  revert admissible. induction l as [|u l IH]; intros admissible; cbn [foldl].
  - destruct (um_content admissible !! s); [done|].
    case_decide as Hin; [by apply elem_of_nil in Hin|done].
  - rewrite IH.
    assert (Hstep : um_content (dumb.principalFaces_step1 K admissible u) !! s =
              match um_content admissible !! s with
              | Some w => Some w
              | None => if decide (s = u) then step1_pair K u else None
              end).
    { unfold dumb.principalFaces_step1, step1_pair.
      destruct (bool_decide (dimension u = 0)).
      - destruct (um_content admissible !! s); [done|]. by destruct (decide (s = u)).
      - destruct (dumb.findFreeFace K u (boundary u)).
        + apply insert_content_lookup.
        + destruct (um_content admissible !! s); [done|].
          by destruct (decide (s = u)). }
    rewrite Hstep. destruct (um_content admissible !! s); [done|].
    destruct (decide (s = u)) as [->|Hne].
    + rewrite (decide_True (P := u ∈ u :: l)) by set_solver.
      destruct (step1_pair K u); [done|]. by destruct (decide (u ∈ l)).
    + apply decide_ext. set_solver.
Qed.

Lemma erase_fold_content_exact (faces : list Simplex) (admissible : M)
  (s : Simplex) :
  um_content (foldl (λ admissible itFace, um_erase itFace admissible)
                admissible faces) !! s =
    if decide (s ∈ faces) then None else um_content admissible !! s.
Proof.
  revert admissible. induction faces as [|g faces IH]; intros admissible;
    cbn [foldl].
  - case_decide as Hin; [by apply elem_of_nil in Hin|done].
  - rewrite IH, um_content_erase. destruct (decide (s = g)) as [->|Hne].
    + rewrite lookup_delete_eq, (decide_True (P := g ∈ g :: faces)) by set_solver.
      by destruct (decide (g ∈ faces)).
    + rewrite lookup_delete_ne by done. apply decide_ext. set_solver.
Qed.

Lemma step2_content_exact (l : SimplicialComplex) (admissible : M)
  (s : Simplex) :
  um_content (foldl dumb.principalFaces_step2 admissible l) !! s =
    if decide (cofaces_of l s = ∅) then um_content admissible !! s else None.
Proof.
  revert admissible. induction l as [|u l IH]; intros admissible; cbn [foldl].
  - rewrite decide_True; [done|]. apply set_eq. intros x.
    rewrite elem_of_cofaces_of. set_solver.
  - rewrite IH.
    assert (Hstep : um_content (dumb.principalFaces_step2 admissible u) !! s =
              if decide (s ∈ boundary u) then None
              else um_content admissible !! s)
      by apply erase_fold_content_exact.
    rewrite Hstep, (cofaces_of_cons u l).
    assert (Hu : cofaces_of [u] s = ∅ ↔ s ∉ boundary u).
    { split.
      - intros He Hin. assert (u ∈ cofaces_of [u] s) as Hx
          by (apply elem_of_cofaces_of; set_solver).
        rewrite He in Hx. set_solver.
      - intros Hnin. apply set_eq. intros x. rewrite elem_of_cofaces_of.
        set_solver. }
    destruct (decide (cofaces_of l s = ∅)) as [Hl|Hl];
      destruct (decide (s ∈ boundary u)) as [Hb|Hb].
    + rewrite decide_False; [done|]. rewrite empty_union_L. tauto.
    + rewrite decide_True; [done|]. rewrite empty_union_L. tauto.
    + rewrite decide_False; [done|]. rewrite empty_union_L. tauto.
    + rewrite decide_False; [done|]. rewrite empty_union_L. tauto.
Qed.

(** The content of the map [dumb::principalFaces] returns. *)
Lemma principalFaces_content (K : SimplicialComplex) (s : Simplex) :
  um_content (dumb.principalFaces (M := M) K) !! s =
    if decide (cofaces_of K s = ∅)
    then if decide (s ∈ K) then step1_pair K s else None
    else None.
Proof.
  unfold dumb.principalFaces.
  rewrite step2_content_exact, step1_content_exact, um_content_new, lookup_empty.
  done.
Qed.

Lemma probe_for_each_content (cofaces : CofaceMap) (l : list Simplex)
  (admissible admissible' : M) (s : Simplex) :
  for_each (probe cofaces) l admissible = Some admissible' →
  um_content admissible' !! s =
    match um_content admissible !! s with
    | Some w => Some w
    | None => if decide (s ∈ l) then probe_pair cofaces s else None
    end.
Proof.
  revert admissible. induction l as [|u l IH]; intros admissible; cbn [for_each].
  - intros [= <-]. destruct (um_content admissible !! s); [done|].
    case_decide as Hin; [by apply elem_of_nil in Hin|done].
  - destruct (probe cofaces admissible u) as [a1|] eqn:Hp; [|done]. simpl.
    intros Hrest. rewrite (IH a1 Hrest).
    assert (Hstep : um_content a1 !! s =
              match um_content admissible !! s with
              | Some w => Some w
              | None => if decide (s = u) then probe_pair cofaces u else None
              end).
    { unfold probe in Hp. unfold probe_pair.
      destruct (getFreeFace cofaces u) as [f|]; [|done]. simpl in Hp.
      injection Hp as <-. destruct (simplex_bool f).
      - apply insert_content_lookup.
      - destruct (um_content admissible !! s); [done|].
        by destruct (decide (s = u)). }
    rewrite Hstep. destruct (um_content admissible !! s); [done|].
    destruct (decide (s = u)) as [->|Hne].
    + rewrite (decide_True (P := u ∈ u :: l)) by set_solver.
      destruct (probe_pair cofaces u); [done|]. by destruct (decide (u ∈ l)).
    + apply decide_ext. set_solver.
Qed.

End AdmissibleMaps.

(** X6. On a face-closed complex of normalised simplices the two engines
    start from the same admissible pairs: the map [dumb::principalFaces]
    computes by scanning the complex and the map [getPrincipalFaces] reads
    off the coface map hold the same keys with the same free faces,
    whatever unordered maps hold them. *)
Theorem principalFaces_agree {M1 : Type} `{UnorderedMap M1}
  {M2 : Type} `{UnorderedMap M2} (K : SimplicialComplex) :
  normalised K → face_closed K → [] ∉ K →
  ∃ admissible : M2,
    getPrincipalFaces (buildCofaceMap K) K = Some admissible ∧
    um_content admissible = um_content (dumb.principalFaces (M := M1) K).
Proof.
  intros Hn Hcl Hne.
  pose proof (buildCofaceMap_consistent K Hcl) as Hc.
  destruct (getPrincipalFaces_probed (M := M2) K _ Hc Hcl) as (adm & Hadm & _).
  exists adm. split; [done|]. apply map_eq. intros s.
  rewrite (probe_for_each_content _ _ _ _ s Hadm), um_content_new, lookup_empty.
  rewrite principalFaces_content.
  destruct (decide (s ∈ K)) as [Hs|Hs];
    [|by destruct (decide (cofaces_of K s = ∅))].
  unfold probe_pair, step1_pair.
  rewrite (getFreeFace_first_free_face K s Hs Hcl).
  rewrite (findFreeFace_first_free_face K s Hn Hs).
  destruct (decide (cofaces_of K s = ∅)) as [He|He]; [|done].
  unfold first_free_face.
  destruct (bool_decide_reflect (dimension s = 0)) as [Hd|Hd].
  - unfold dimension in Hd. destruct s as [|a [|b s]]; [done|done|].
    simpl in Hd. lia.
  - destruct (head _) as [f|] eqn:Hf; [|done]. simpl.
    apply head_Some_elem_of, list_elem_of_filter in Hf as [_ Hf].
    apply boundary_length in Hf as [_ Hpos]. by destruct f; [simpl in Hpos; lia|].
Qed.

Lemma principalFaces_agree_witness :
  normalised two_triangles_and_cycle ∧ face_closed two_triangles_and_cycle ∧
  [] ∉ two_triangles_and_cycle ∧
  ∃ admissible : OldestFirst.t,
    getPrincipalFaces (buildCofaceMap two_triangles_and_cycle)
      two_triangles_and_cycle = Some admissible ∧
    um_content admissible
    = um_content (dumb.principalFaces (M := NewestFirst.t)
                    two_triangles_and_cycle).
Proof.
  split; [apply (bool_decide_unpack _); vm_compute; exact I|].
  split; [apply face_closedb_true; vm_compute; reflexivity|].
  split; [apply (bool_decide_unpack _); vm_compute; exact I|].
  apply (principalFaces_agree two_triangles_and_cycle).
  - apply (bool_decide_unpack _). vm_compute. exact I.
  - apply face_closedb_true. vm_compute. reflexivity.
  - apply (bool_decide_unpack _). vm_compute. exact I.
Defined.

(** ** The reference implementation on arbitrary input *)

Section DumbTotal.

Context {M : Type} `{UnorderedMap M}.

Lemma principalFaces_key_member (K : SimplicialComplex) (s t : Simplex) :
  um_content (dumb.principalFaces (M := M) K) !! s = Some t → s ∈ K.
Proof.
  rewrite principalFaces_content.
  destruct (decide (cofaces_of K s = ∅)); [|done].
  by destruct (decide (s ∈ K)).
Qed.

Lemma dumb_spine_loop_total (fuel : nat) (L : SimplicialComplex) :
  length L ≤ fuel →
  ∃ L', dumb.spine_loop fuel L (dumb.principalFaces (M := M) L) = Returned L' ∧
        L' `sublist_of` L ∧
        um_empty (dumb.principalFaces (M := M) L') = true.
Proof.
  revert L. induction fuel as [|fuel IH]; intros L Hlen;
    destruct (um_empty (dumb.principalFaces (M := M) L)) eqn:He;
    try (exists L; split_and!; [by apply dumb_spine_loop_empty|done|done]);
    destruct (um_begin_pair _ He) as (s & t & Hb & Hst);
    apply principalFaces_key_member in Hst;
    pose proof (length_filter_lt (λ u, u ≠ s) L s Hst) as Hlt;
    pose proof (length_filter (λ u, u ≠ t) (filter (λ u, u ≠ s) L)) as Hle.
  - assert (length (filter (λ u, u ≠ s) L) < length L) by (apply Hlt; tauto).
    lia.
  - assert (length (filter (λ u, u ≠ s) L) < length L) by (apply Hlt; tauto).
    destruct (IH (remove_without_validation t (remove_without_validation s L)))
      as (L' & Hrun & Hsub & He').
    { unfold remove_without_validation. lia. }
    exists L'. split_and!; [|by etrans; [|etrans; apply sublist_remove]|done].
    simpl. rewrite He. unfold dumb.spine_body. rewrite Hb. simpl. done.
Qed.

End DumbTotal.

(** X7. [dumb::spine] needs no precondition: on every sequence of simplices,
    closed under faces or not, it returns, never leaves through an
    exception, and returns a sub-sequence of its input on which
    [principalFaces] finds nothing and which it returns unchanged when run
    again. *)
Theorem dumb_spine_total {M : Type} `{UnorderedMap M} (K : SimplicialComplex) :
  ∃ L, dumb.spine (M := M) K = Returned L ∧ L `sublist_of` K ∧
       um_empty (dumb.principalFaces (M := M) L) = true ∧
       dumb.spine (M := M) L = Returned L.
Proof.
  destruct (dumb_spine_loop_total (M := M) (length K) K) as (L & Hrun & Hsub & He);
    [done|].
  exists L. split_and!; [done|done|done|].
  by apply dumb_spine_loop_empty.
Qed.

(** ** Fixed points and the two engines on each other's results *)

Section FixedPoints.

Context {M : Type} `{UnorderedMap M}.

Lemma collapse_free_principalFaces_empty (L : SimplicialComplex) :
  face_closed L → collapse_free L →
  um_empty (dumb.principalFaces (M := M) L) = true.
Proof.
  intros Hcl Hfree.
  destruct (um_empty (dumb.principalFaces (M := M) L)) eqn:He; [done|].
  destruct (um_begin_pair _ He) as (s & t & _ & Hst).
  apply (principalFaces_collapse L s t Hcl) in Hst.
  destruct (Hfree _ (ex_intro _ s (ex_intro _ t Hst))).
Qed.

Lemma collapse_free_spine (L : SimplicialComplex) :
  face_closed L → collapse_free L → spine (M := M) L = Returned L.
Proof.
  intros Hcl Hfree. apply spine_fuel_irreducible.
  apply collapse_free_irreducible; [|done|done].
  by apply buildCofaceMap_consistent.
Qed.

End FixedPoints.

(** X8. [spine] returns its input unchanged exactly when the input admits no
    elementary collapse, that is, holds no principal simplex with a free
    face. *)
Theorem spine_fixed_point_iff {M : Type} `{UnorderedMap M}
  (K : SimplicialComplex) :
  complex K → spine (M := M) K = Returned K ↔ collapse_free K.
Proof.
  intros HK. split.
  - intros Hrun. destruct (spine_spec (M := M) K HK) as (L & Hrun' & _ & Hfree & _).
    assert (L = K) as -> by congruence. done.
  - apply collapse_free_spine, HK.
Qed.

Lemma spine_fixed_point_iff_witness :
  complex hollow_triangle ∧
  (spine (M := NewestFirst.t) hollow_triangle = Returned hollow_triangle ↔
   collapse_free hollow_triangle).
Proof.
  split; [apply complex_check; vm_compute; reflexivity|].
  apply (spine_fixed_point_iff hollow_triangle).
  apply complex_check. vm_compute. reflexivity.
Defined.

(** X9. On a face-closed complex of normalised simplices each engine accepts
    the result of the other as a spine: [dumb::spine] returns the result of
    [spine] unchanged, and [spine] returns the result of [dumb::spine]
    unchanged. *)
Theorem engines_accept_each_other {M1 : Type} `{UnorderedMap M1}
  {M2 : Type} `{UnorderedMap M2} (K : SimplicialComplex) :
  complex K → normalised K →
  ∃ L1 L2,
    spine (M := M1) K = Returned L1 ∧
    dumb.spine (M := M2) K = Returned L2 ∧
    dumb.spine (M := M2) L1 = Returned L1 ∧
    spine (M := M1) L2 = Returned L2.
Proof.
  intros HK Hn.
  destruct (spine_spec (M := M1) K HK) as (L1 & Hrun1 & Hr1 & Hfree1 & _).
  destruct (dumb_spine_spec_normalised (M := M2) K HK Hn)
    as (L2 & Hrun2 & Hr2 & Hfree2).
  destruct (rtc_collapse_complex K L1 HK Hr1) as (HL1 & _).
  destruct (rtc_collapse_complex K L2 HK Hr2) as (HL2 & _).
  exists L1, L2. split_and!; [done|done| |].
  - apply dumb_spine_loop_empty.
    apply collapse_free_principalFaces_empty; [apply HL1|done].
  - apply collapse_free_spine; [apply HL2|done].
Qed.

Lemma engines_accept_each_other_witness :
  complex two_triangles_and_cycle ∧ normalised two_triangles_and_cycle ∧
  ∃ L1 L2,
    spine (M := NewestFirst.t) two_triangles_and_cycle = Returned L1 ∧
    dumb.spine (M := NewestFirst.t) two_triangles_and_cycle = Returned L2 ∧
    dumb.spine (M := NewestFirst.t) L1 = Returned L1 ∧
    spine (M := NewestFirst.t) L2 = Returned L2.
Proof.
  split; [apply complex_check; vm_compute; reflexivity|].
  split; [apply (bool_decide_unpack _); vm_compute; exact I|].
  apply (engines_accept_each_other two_triangles_and_cycle).
  - apply complex_check. vm_compute. reflexivity.
  - apply (bool_decide_unpack _). vm_compute. exact I.
Defined.

(** ** What both engines keep *)

(** X10. Both engines return a sub-sequence of their input, the members
    that remain in the order they had, with the Euler characteristic of the
    input. *)
Theorem spines_keep_order_and_euler {M1 : Type} `{UnorderedMap M1}
  {M2 : Type} `{UnorderedMap M2} (K : SimplicialComplex) :
  complex K →
  ∃ L1 L2,
    spine (M := M1) K = Returned L1 ∧
    dumb.spine (M := M2) K = Returned L2 ∧
    L1 `sublist_of` K ∧ L2 `sublist_of` K ∧
    euler L1 = euler K ∧ euler L2 = euler K.
Proof.
  intros HK.
  destruct (spine_spec (M := M1) K HK) as (L1 & Hrun1 & Hr1 & _).
  destruct (dumb_spine_spec (M := M2) K HK) as (L2 & Hrun2 & Hr2 & _).
  destruct (rtc_collapse_complex K L1 HK Hr1) as (_ & _ & Hs1 & He1).
  destruct (rtc_collapse_complex K L2 HK Hr2) as (_ & _ & Hs2 & He2).
  by exists L1, L2.
Qed.

Lemma spines_keep_order_and_euler_witness :
  complex full_triangle ∧
  ∃ L1 L2,
    spine (M := NewestFirst.t) full_triangle = Returned L1 ∧
    dumb.spine (M := OldestFirst.t) full_triangle = Returned L2 ∧
    L1 `sublist_of` full_triangle ∧ L2 `sublist_of` full_triangle ∧
    euler L1 = euler full_triangle ∧ euler L2 = euler full_triangle.
Proof.
  split; [apply complex_check; vm_compute; reflexivity|].
  apply (spines_keep_order_and_euler full_triangle).
  apply complex_check. vm_compute. reflexivity.
Defined.

Lemma collapse_nonempty (K K' : SimplicialComplex) :
  normalised K → face_closed K → collapse K K' → K' ≠ [].
Proof.
  intros Hn Hcl (s & t & Hs & Hb & Hes & Het & ->).
  pose proof (proj1 (Forall_forall _ _) Hn s Hs) as Hss.
  assert (Hg : ∃ g, g ∈ boundary s ∧ g ≠ t).
  { destruct s as [|a [|b r]]; try by apply elem_of_nil in Hb.
    destruct (decide (t = b :: r)) as [->|Hne].
    - exists (a :: r). split.
      + cbn [boundary drop_each]. destruct r; set_solver.
      + intros [= ->]. apply StronglySorted_inv in Hss as [_ Ha].
        apply Forall_cons in Ha as [? _]. lia.
    - exists (b :: r). split; [|done]. cbn [boundary drop_each]. set_solver. }
  destruct Hg as (g & Hg & Hgt).
  assert (g ∈ remove_without_validation t (remove_without_validation s K)) as Hin.
  { rewrite !elem_of_remove. split_and!; [done| |by apply (Hcl s g)].
    intros ->. apply boundary_length in Hg. lia. }
  intros Hnil. rewrite Hnil in Hin. by apply elem_of_nil in Hin.
Qed.

Lemma rtc_collapse_nonempty (K L : SimplicialComplex) :
  complex K → normalised K → K ≠ [] → rtc collapse K L → L ≠ [].
Proof.
  intros HK Hn Hne Hr. induction Hr as [K|K K1 L Hstep Hr IH]; [done|].
  destruct (collapse_complex' K K1 HK Hstep) as (HK1 & _).
  apply IH; [done|by apply (collapse_normalised K)|].
  apply (collapse_nonempty K); [done|apply HK|done].
Qed.

(** X11. A complex of normalised simplices that is not empty is never
    reduced to nothing: both engines return a complex that is not empty. *)
Theorem spines_nonempty {M1 : Type} `{UnorderedMap M1}
  {M2 : Type} `{UnorderedMap M2} (K : SimplicialComplex) :
  complex K → normalised K → K ≠ [] →
  ∃ L1 L2,
    spine (M := M1) K = Returned L1 ∧
    dumb.spine (M := M2) K = Returned L2 ∧ L1 ≠ [] ∧ L2 ≠ [].
Proof.
  intros HK Hn Hne.
  destruct (spine_spec (M := M1) K HK) as (L1 & Hrun1 & Hr1 & _).
  destruct (dumb_spine_spec (M := M2) K HK) as (L2 & Hrun2 & Hr2 & _).
  exists L1, L2. split_and!; [done|done| |];
    by apply (rtc_collapse_nonempty K).
Qed.

Lemma spines_nonempty_witness :
  complex full_triangle ∧ normalised full_triangle ∧ full_triangle ≠ [] ∧
  ∃ L1 L2,
    spine (M := NewestFirst.t) full_triangle = Returned L1 ∧
    dumb.spine (M := NewestFirst.t) full_triangle = Returned L2 ∧
    L1 ≠ [] ∧ L2 ≠ [].
Proof.
  split; [apply complex_check; vm_compute; reflexivity|].
  split; [apply (bool_decide_unpack _); vm_compute; exact I|].
  split; [discriminate|].
  apply (spines_nonempty full_triangle).
  - apply complex_check. vm_compute. reflexivity.
  - apply (bool_decide_unpack _). vm_compute. exact I.
  - discriminate.
Defined.

(** ** [spine] on a complex that is not closed under faces *)

Section LoneSimplex.

Context {M : Type} `{UnorderedMap M}.

Lemma lone_simplex_lookup (s x : Simplex) :
  buildCofaceMap [s] !! x =
    if decide (x ∈ boundary s) then Some {[s]}
    else if decide (x = s) then Some ∅ else None.
Proof.
  unfold buildCofaceMap. cbn [foldl].
  rewrite buildCofaceMap_step_lookup, lookup_empty. simpl.
  assert (Hc : cofaces_of [s] x = if decide (x ∈ boundary s) then {[s]} else ∅).
  { apply set_eq. intros u. rewrite elem_of_cofaces_of.
    destruct (decide (x ∈ boundary s)); set_solver. }
  rewrite Hc. destruct (decide (x ∈ boundary s)) as [Hb|Hb].
  - rewrite decide_True by tauto. f_equal; set_solver.
  - destruct (decide (x = s)) as [->|Hne].
    + rewrite decide_True by tauto. f_equal; set_solver.
    + by rewrite decide_False by tauto.
Qed.

Lemma lone_simplex_throws (a b c : nat) (r : list nat) :
  spine (M := M) [a :: b :: c :: r] = Thrown.
Proof.
  set (s := a :: b :: c :: r). set (t := b :: c :: r). set (u := c :: r).
  assert (Hbs : ∃ fs, boundary s = t :: fs) by by eexists.
  assert (Hbt : ∃ fs, boundary t = u :: fs) by by eexists.
  assert (Hss : s ∉ boundary s).
  { intros Hin. apply boundary_length in Hin. lia. }
  assert (Hus : u ∉ boundary s).
  { intros Hin. apply boundary_length in Hin. simpl in Hin. lia. }
  assert (Hne : u ≠ s).
  { intros Heq. apply (f_equal length) in Heq. simpl in Heq. lia. }
  assert (Hbool : simplex_bool t = true) by done.
  assert (Hlen : length [s] = 1) by done.
  clearbody s t u. destruct Hbs as [fs Hbs]. destruct Hbt as [ft Hbt].
  assert (Hts : t ∈ boundary s) by (rewrite Hbs; set_solver).
  assert (Hs : buildCofaceMap [s] !! s = Some ∅)
    by by rewrite lone_simplex_lookup, decide_False, decide_True.
  assert (Ht : buildCofaceMap [s] !! t = Some {[s]})
    by by rewrite lone_simplex_lookup, decide_True.
  assert (Hfree : getFreeFace (buildCofaceMap [s]) s = Some t).
  { unfold getFreeFace, isPrincipal, cofaces_at. rewrite Hs. simpl.
    rewrite bool_decide_eq_true_2 by done. simpl.
    rewrite firstFreeFace_spec.
    - by rewrite Hbs, filter_cons_True.
    - intros f Hf. rewrite lone_simplex_lookup, decide_True by done.
      by eexists. }
  assert (Hinit : spine_init (M := M) [s]
                  = Some (mkState [s] (buildCofaceMap [s])
                            (um_insert s t um_new))).
  { unfold spine_init, getPrincipalFaces. cbn [for_each]. unfold probe.
    rewrite Hfree. simpl. by rewrite Hbool. }
  assert (Hcontent : um_content (um_insert s t (um_new : M)) = {[s := t]}).
  { rewrite um_content_insert, um_content_new, lookup_empty. done. }
  unfold spine, spine_fuel. rewrite Hinit, Hlen.
  cbn [spine_loop st_admissible].
  destruct (um_empty (um_insert s t (um_new : M))) eqn:He.
  { apply um_empty_spec in He. rewrite Hcontent in He.
    by apply map_non_empty_singleton in He. }
  destruct (um_begin_pair _ He) as (k & v & Hb & Hkv).
  rewrite Hcontent in Hkv. apply lookup_singleton_Some in Hkv as [<- <-].
  assert (Hmut : collapseMutation s t (buildCofaceMap [s]) = None).
  { unfold collapseMutation.
    destruct (removeSimplices_for_each s t (boundary s) (buildCofaceMap [s]))
      as (c1 & -> & Hl1).
    { intros f Hf. rewrite lone_simplex_lookup, decide_True by done.
      by eexists. }
    simpl.
    assert (for_each (removeSimplices s t) (boundary t) c1 = None) as ->;
      [|done].
    apply removeSimplices_for_each_None. exists u.
    split; [rewrite Hbt; set_solver|].
    rewrite Hl1, decide_False by done.
    by rewrite lone_simplex_lookup, !decide_False. }
  unfold spine_body. cbn [st_admissible st_cofaces]. rewrite Hb. simpl.
  by rewrite Hmut.
Qed.

End LoneSimplex.

(** X12. Closure under faces is a real precondition of [spine]: on a
    simplex of dimension two or more given without its faces, the collapse
    mutation looks up a face of the free face that [buildCofaceMap] never
    entered, and [spine] leaves through [std::out_of_range]. *)
Theorem spine_lone_simplex_throws {M : Type} `{UnorderedMap M} (s : Simplex) :
  3 ≤ length s → spine (M := M) [s] = Thrown.
Proof.
  intros Hlen. destruct s as [|a [|b [|c r]]]; simpl in Hlen; try lia.
  apply lone_simplex_throws.
Qed.

Lemma spine_lone_simplex_throws_witness :
  3 ≤ length [0; 1; 2] ∧ spine (M := NewestFirst.t) [[0; 1; 2]] = Thrown.
Proof.
  split; [simpl; lia|].
  apply (spine_lone_simplex_throws [0; 1; 2]). simpl. lia.
Defined.

(** ** Filtrations *)

Lemma isConsistentFiltration_loop_iff (seen : gset Simplex) (l : list Simplex) :
  isConsistentFiltration_loop seen l = true ↔
  ∀ l1 u l2, l = l1 ++ u :: l2 →
             ∀ f, f ∈ boundary u → f ∈ seen ∨ f ∈ l1 ++ [u].
Proof.
  revert seen. induction l as [|s l IH]; intros seen; cbn [isConsistentFiltration_loop].
  - split; [|done]. intros _ l1 u l2 Heq. by destruct l1.
  - destruct (forallb (λ itFace, bool_decide (itFace ∈ seen ∪ {[s]})) (boundary s))
      eqn:Hall.
    + rewrite forallb_forall in Hall. rewrite IH. split.
      * intros Hrest l1 u l2 Heq f Hf. destruct l1 as [|x l1]; simplify_eq/=.
        -- apply list_elem_of_In in Hf. specialize (Hall f Hf).
           apply bool_decide_eq_true in Hall. set_solver.
        -- destruct (Hrest l1 u l2 eq_refl f Hf); set_solver.
      * intros Hl l1 u l2 -> f Hf.
        destruct (Hl (s :: l1) u l2 eq_refl f Hf) as [|Hin]; [set_solver|].
        simpl in Hin. set_solver.
    + split; [done|]. intros Hl.
      assert (forallb (λ itFace, bool_decide (itFace ∈ seen ∪ {[s]}))
                (boundary s) = true); [|congruence].
      apply forallb_forall. intros f Hf. apply list_elem_of_In in Hf.
      apply bool_decide_eq_true.
      destruct (Hl [] s l eq_refl f Hf); set_solver.
Qed.

Lemma faces_first_filtration (l : list Simplex) :
  faces_first l ↔ filtration l.
Proof.
  split.
  - intros Hl n u f Hu Hf.
    apply list_elem_of_split in Hu as (l1 & l2 & Heq).
    pose proof (take_drop n l) as Htd. rewrite Heq in Htd.
    assert (f ∈ l1 ++ [u]) as Hin.
    { apply (Hl l1 u (l2 ++ drop n l)); [|done].
      rewrite <- app_assoc in Htd. by rewrite <- app_comm_cons in Htd. }
    rewrite Heq. set_solver.
  - intros Hl l1 u l2 -> f Hf.
    assert (Htake : take (S (length l1)) (l1 ++ u :: l2) = l1 ++ [u]).
    { rewrite (cons_middle u l1 l2), app_assoc.
      replace (S (length l1)) with (length (l1 ++ [u]))
        by (rewrite length_app; simpl; lia).
      by rewrite take_app_length. }
    rewrite <- Htake. apply (Hl (S (length l1)) u f); [|done].
    rewrite Htake. set_solver.
Qed.

(** X13. [isConsistentFiltration] answers true exactly on filtrations: the
    sequences of which every initial segment is closed under faces. *)
Theorem isConsistentFiltration_iff (l : list Simplex) :
  isConsistentFiltration l = true ↔ filtration l.
Proof.
  rewrite <- faces_first_filtration. unfold isConsistentFiltration.
  rewrite isConsistentFiltration_loop_iff. unfold faces_first.
  split; intros Hl l1 u l2 Heq f Hf.
  - destruct (Hl l1 u l2 Heq f Hf); set_solver.
  - right. by apply (Hl l1 u l2).
Qed.

Lemma filter_split {A : Type} (P : A → Prop) `{∀ x, Decision (P x)}
  (l a b : list A) (u : A) :
  filter P l = a ++ u :: b →
  ∃ l1 l2, l = l1 ++ u :: l2 ∧ a = filter P l1 ∧ P u.
Proof.
  revert a. induction l as [|x l IH]; intros a Heq.
  - by destruct a.
  - rewrite filter_cons in Heq. destruct (decide (P x)) as [HP|HP].
    + destruct a as [|y a]; simpl in Heq; injection Heq as -> Heq.
      * by exists [], l.
      * destruct (IH a Heq) as (l1 & l2 & -> & -> & Hu).
        exists (y :: l1), l2. by rewrite filter_cons_True.
    + destruct (IH a Heq) as (l1 & l2 & -> & -> & Hu).
      exists (x :: l1), l2. by rewrite filter_cons_False.
Qed.

Lemma remove_faces_first (x : Simplex) (l : list Simplex) :
  faces_first l → (∀ u, u ∈ l → u ≠ x → x ∉ boundary u) →
  faces_first (remove_without_validation x l).
Proof.
  intros Hl Hx a u b Heq f Hf. unfold remove_without_validation in Heq.
  apply filter_split in Heq as (l1 & l2 & -> & -> & Hu).
  pose proof (Hl l1 u l2 eq_refl f Hf) as Hin.
  assert (f ≠ x) by (intros ->; apply (Hx u); [set_solver|done|done]).
  apply elem_of_app in Hin as [Hin|Hin]; [|set_solver].
  apply elem_of_app. left. by apply list_elem_of_filter.
Qed.

Lemma collapse_faces_first (K K' : SimplicialComplex) :
  faces_first K → collapse K K' → faces_first K'.
Proof.
  intros HK (s & t & Hs & Hb & Hes & Het & ->).
  apply remove_faces_first; [apply remove_faces_first; [done|]|].
  - intros u Hu _ Hsu.
    assert (u ∈ cofaces_of K s) as Hin by by apply elem_of_cofaces_of.
    rewrite Hes in Hin. set_solver.
  - intros u Hu _ Htu. apply elem_of_remove in Hu as [Hne Hu].
    assert (u ∈ cofaces_of K t) as Hin by by apply elem_of_cofaces_of.
    rewrite Het in Hin. set_solver.
Qed.

Lemma rtc_collapse_faces_first (K L : SimplicialComplex) :
  faces_first K → rtc collapse K L → faces_first L.
Proof. intros HK Hr. induction Hr; eauto using collapse_faces_first. Qed.

Lemma isConsistentFiltration_faces_first (l : list Simplex) :
  isConsistentFiltration l = true ↔ faces_first l.
Proof.
  unfold isConsistentFiltration. rewrite isConsistentFiltration_loop_iff.
  split; intros Hl l1 u l2 Heq f Hf.
  - destruct (Hl l1 u l2 Heq f Hf); set_solver.
  - right. by apply (Hl l1 u l2).
Qed.

(** X14. The spine of a filtration is a filtration: when the members of a
    complex are enumerated faces first, so that [isConsistentFiltration]
    accepts it, it accepts what either engine returns. *)
Theorem spines_of_filtration {M1 : Type} `{UnorderedMap M1}
  {M2 : Type} `{UnorderedMap M2} (K : SimplicialComplex) :
  NoDup K → isConsistentFiltration K = true →
  ∃ L1 L2,
    spine (M := M1) K = Returned L1 ∧
    dumb.spine (M := M2) K = Returned L2 ∧
    isConsistentFiltration L1 = true ∧ isConsistentFiltration L2 = true.
Proof.
  intros Hnd Hf. apply isConsistentFiltration_faces_first in Hf as Hff.
  assert (HK : complex K).
  { split; [done|]. apply faces_first_filtration in Hff.
    specialize (Hff (length K)). by rewrite firstn_all in Hff. }
  destruct (spine_spec (M := M1) K HK) as (L1 & Hrun1 & Hr1 & _).
  destruct (dumb_spine_spec (M := M2) K HK) as (L2 & Hrun2 & Hr2 & _).
  exists L1, L2. split_and!; [done|done| |];
    by apply isConsistentFiltration_faces_first, (rtc_collapse_faces_first K).
Qed.

Lemma spines_of_filtration_witness :
  NoDup [[0]; [1]; [2]; [0; 1]; [0; 2]; [1; 2]; [0; 1; 2]] ∧
  isConsistentFiltration [[0]; [1]; [2]; [0; 1]; [0; 2]; [1; 2]; [0; 1; 2]]
  = true ∧
  ∃ L1 L2,
    spine (M := NewestFirst.t)
      [[0]; [1]; [2]; [0; 1]; [0; 2]; [1; 2]; [0; 1; 2]] = Returned L1 ∧
    dumb.spine (M := NewestFirst.t)
      [[0]; [1]; [2]; [0; 1]; [0; 2]; [1; 2]; [0; 1; 2]] = Returned L2 ∧
    isConsistentFiltration L1 = true ∧ isConsistentFiltration L2 = true.
Proof.
  split; [apply (bool_decide_unpack _); vm_compute; exact I|].
  split; [vm_compute; reflexivity|].
  apply (spines_of_filtration
           [[0]; [1]; [2]; [0; 1]; [0; 2]; [1; 2]; [0; 1; 2]]).
  - apply (bool_decide_unpack _). vm_compute. exact I.
  - vm_compute. reflexivity.
Defined.

(** ** Trimming *)

Lemma ltrim_cons (c : ascii) (l : list ascii) :
  utilities.ltrim (c :: l) =
    if utilities.isspace c then utilities.ltrim l else c :: l.
Proof.
  unfold utilities.ltrim. cbn [utilities.find_if_not].
  by destruct (utilities.isspace c).
Qed.

Lemma ltrim_blank_app (pre l : list ascii) :
  blank pre → utilities.ltrim (pre ++ l) = utilities.ltrim l.
Proof.
  induction 1 as [|c pre Hc Hpre IH]; [done|].
  by rewrite <- app_comm_cons, ltrim_cons, Hc.
Qed.

Lemma ltrim_id (l : list ascii) :
  (∀ c, head l = Some c → utilities.isspace c = false) →
  utilities.ltrim l = l.
Proof.
  destruct l as [|c l]; [done|]. intros Hc. rewrite ltrim_cons.
  by rewrite (Hc c).
Qed.

Lemma ltrim_split (l : list ascii) :
  ∃ pre, l = pre ++ utilities.ltrim l ∧ blank pre ∧
         ∀ c, head (utilities.ltrim l) = Some c → utilities.isspace c = false.
Proof.
  induction l as [|c l (pre & Heq & Hpre & Hhead)].
  - exists []. by split_and!; [|constructor|].
  - rewrite ltrim_cons. destruct (utilities.isspace c) eqn:Hc.
    + exists (c :: pre). split_and!; [by rewrite Heq at 1|by constructor|done].
    + exists []. split_and!; [done|constructor|]. by intros ? [= <-].
Qed.

Lemma rtrim_reverse (l : list ascii) :
  utilities.rtrim l = reverse (utilities.ltrim (reverse l)).
Proof.
  unfold utilities.rtrim, utilities.ltrim.
  by rewrite drop_reverse, reverse_involutive.
Qed.

Lemma blank_reverse (l : list ascii) : blank l → blank (reverse l).
Proof.
  unfold blank. rewrite !Forall_forall. intros Hl c Hc. apply Hl.
  by apply elem_of_reverse.
Qed.

Lemma rtrim_app_blank (l post : list ascii) :
  blank post → utilities.rtrim (l ++ post) = utilities.rtrim l.
Proof.
  intros Hpost. rewrite !rtrim_reverse, reverse_app.
  by rewrite ltrim_blank_app by by apply blank_reverse.
Qed.

Lemma rtrim_id (l : list ascii) :
  (∀ c, last l = Some c → utilities.isspace c = false) →
  utilities.rtrim l = l.
Proof.
  intros Hc. rewrite rtrim_reverse, ltrim_id, reverse_involutive; [done|].
  intros c. rewrite head_reverse. apply Hc.
Qed.

Lemma rtrim_split (l : list ascii) :
  ∃ post, l = utilities.rtrim l ++ post ∧ blank post ∧
          ∀ c, last (utilities.rtrim l) = Some c → utilities.isspace c = false.
Proof.
  destruct (ltrim_split (reverse l)) as (pre & Heq & Hpre & Hhead).
  exists (reverse pre). rewrite rtrim_reverse. split_and!.
  - rewrite <- reverse_app, <- Heq. by rewrite reverse_involutive.
  - by apply blank_reverse.
  - intros c. rewrite last_reverse. apply Hhead.
Qed.

(** A trimmed sequence padded with white space on both sides is recovered
    by trimming, whichever side is trimmed first. *)
Lemma trim_padded (pre m post : list ascii) :
  blank pre → blank post → trimmed m →
  utilities.trim (pre ++ m ++ post) = m ∧
  utilities.rtrim (utilities.ltrim (pre ++ m ++ post)) = m.
Proof.
  intros Hpre Hpost [Hhead Hlast]. unfold utilities.trim.
  rewrite (ltrim_blank_app pre) by done.
  rewrite app_assoc, (rtrim_app_blank (pre ++ m)) by done.
  destruct m as [|c m].
  - rewrite app_nil_r, app_nil_l.
    assert (utilities.rtrim pre = []) as ->.
    { by rewrite <- (app_nil_l pre), rtrim_app_blank. }
    assert (utilities.ltrim post = []) as ->.
    { by rewrite <- (app_nil_r post), ltrim_blank_app. }
    done.
  - rewrite (rtrim_id (pre ++ c :: m)) by (intros c'; rewrite last_app_cons; apply Hlast).
    rewrite (ltrim_blank_app pre) by done.
    rewrite (ltrim_id (c :: m)) by done.
    rewrite (ltrim_id ((c :: m) ++ post)) by (intros c'; apply Hhead).
    by rewrite rtrim_app_blank, rtrim_id.
Qed.

Lemma trim_split (l : list ascii) :
  ∃ pre post, l = pre ++ utilities.trim l ++ post ∧ blank pre ∧ blank post ∧
              trimmed (utilities.trim l).
Proof.
  destruct (rtrim_split l) as (post & Heq & Hpost & Hlast).
  destruct (ltrim_split (utilities.rtrim l)) as (pre & Heq' & Hpre & Hhead).
  exists pre, post. unfold utilities.trim. split_and!; [|done|done|].
  - rewrite app_assoc, <- Heq'. done.
  - split; [done|]. intros c Hc. apply Hlast. rewrite Heq'.
    destruct (utilities.ltrim (utilities.rtrim l)) as [|x t]; [done|].
    by rewrite last_app_cons.
Qed.

(** X15. [trim] removes white space at the two ends and nothing else: its
    argument is its result between two runs of white space, and the result
    neither starts nor ends with white space. *)
Theorem trim_removes_outer_whitespace (l : list ascii) :
  ∃ pre post,
    l = pre ++ utilities.trim l ++ post ∧
    Forall (λ c, utilities.isspace c = true) pre ∧
    Forall (λ c, utilities.isspace c = true) post ∧
    (∀ c, head (utilities.trim l) = Some c → utilities.isspace c = false) ∧
    (∀ c, last (utilities.trim l) = Some c → utilities.isspace c = false).
Proof.
  destruct (trim_split l) as (pre & post & Heq & Hpre & Hpost & Hhead & Hlast).
  by exists pre, post.
Qed.

(** X16. White space added in front of a sequence or behind it does not
    change what [trim] returns. *)
Theorem trim_ignores_padding (pre l post : list ascii) :
  Forall (λ c, utilities.isspace c = true) pre →
  Forall (λ c, utilities.isspace c = true) post →
  utilities.trim (pre ++ l ++ post) = utilities.trim l.
Proof.
  intros Hpre Hpost.
  destruct (trim_split l) as (pre' & post' & Heq & Hpre' & Hpost' & Ht).
  rewrite Heq at 1.
  replace (pre ++ (pre' ++ utilities.trim l ++ post') ++ post)
    with ((pre ++ pre') ++ utilities.trim l ++ (post' ++ post))
    by (by rewrite <- !app_assoc).
  apply trim_padded; [by apply Forall_app|by apply Forall_app|done].
Qed.

Lemma trim_ignores_padding_witness :
  Forall (λ c, utilities.isspace c = true) [" "; "009"]%char ∧
  Forall (λ c, utilities.isspace c = true) ["010"]%char ∧
  utilities.trim ([" "; "009"] ++ ["a"; " "; "b"] ++ ["010"])%char
  = utilities.trim ["a"; " "; "b"]%char.
Proof.
  split; [repeat constructor|]. split; [repeat constructor|].
  apply (trim_ignores_padding [" "; "009"]%char ["a"; " "; "b"]%char
           ["010"]%char); repeat constructor.
Defined.

(** X17. [trim] is idempotent, and it does not matter which end is trimmed
    first: [ltrim] after [rtrim], as [trim] has it, gives what [rtrim] after
    [ltrim] gives. *)
Theorem trim_idempotent_and_symmetric (l : list ascii) :
  utilities.trim (utilities.trim l) = utilities.trim l ∧
  utilities.ltrim (utilities.rtrim l) = utilities.rtrim (utilities.ltrim l).
Proof.
  destruct (trim_split l) as (pre & post & Heq & Hpre & Hpost & Ht).
  split.
  - destruct (trim_padded [] (utilities.trim l) []) as [Hid _];
      [constructor|constructor|done|].
    by rewrite app_nil_l, app_nil_r in Hid.
  - destruct (trim_padded pre (utilities.trim l) post Hpre Hpost Ht) as [_ Hrl].
    rewrite <- Heq in Hrl. by rewrite Hrl.
Qed.

(** X18. [trim] returns the empty sequence exactly on white space only, and
    returns its argument unchanged exactly when that neither starts nor
    ends with white space. *)
Theorem trim_empty_and_fixed (l : list ascii) :
  (utilities.trim l = [] ↔ Forall (λ c, utilities.isspace c = true) l) ∧
  (utilities.trim l = l ↔
   (∀ c, head l = Some c → utilities.isspace c = false) ∧
   (∀ c, last l = Some c → utilities.isspace c = false)).
Proof.
  destruct (trim_split l) as (pre & post & Heq & Hpre & Hpost & Ht).
  split; split.
  - intros He. rewrite Heq, He. by apply Forall_app.
  - intros Hl. destruct (trim_padded l [] []) as [Hid _];
      [done|constructor|by split|].
    by rewrite !app_nil_r in Hid.
  - intros Hid. by rewrite <- Hid.
  - intros Hl. destruct (trim_padded [] l []) as [Hid _];
      [constructor|constructor|done|].
    by rewrite app_nil_l, app_nil_r in Hid.
Qed.
